(** * A private blockchain (star registry): the Blockchain class

    A shallow embedding of [src/blockchain.js] and a verification of its
    chain-integrity and ownership-verification core.

    Conventions of the embedding.

    - A JS number that the code only uses as an integer (heights, lengths,
      seconds) is a [Z]; [NaN] is [None] in an [option Z].
    - [null] in a field that otherwise holds a string is [None].
    - A promise is modelled by the way it settles ([Promise]).  The
      operations ([constructor], [_addBlock], [submitStar], ...) are the
      calls run to completion: the caller awaits the promise it got, or
      lets the task end, before it starts the next call.  The one await
      inside [_addBlock] that separates reading the chain from writing it
      is kept visible ([_addBlock_seal] / [_addBlock_commit]), and [Loop]
      models calls made in one task, whose continuations wait until the
      task has ended ([new_Blockchain], [call], [drain], [play]).
    - An exception thrown inside an [async] promise executor is lost and
      leaves the promise pending for ever; this is [Pending].
    - The libraries the code calls (crypto-js, bitcoinjs-message, the JSON
      and hex codecs) are the fields of the class [Externals]: every
      theorem holds for all of them. *)

From Stdlib Require Import ZArith Ascii String List Lia Bool.
From Stdlib Require Import DecimalString DecimalPos.
From stdpp Require Import base decidable option list strings countable.

Import ListNotations.
Open Scope string_scope.
Open Scope list_scope.
Open Scope Z_scope.

(** ** JavaScript values *)

(** The values that can be stored in, and recovered from, a block body:
    what [JSON.parse] returns. *)
#[local] Unset Elimination Schemes.
Inductive JSON : Type :=
| JNull
| JBool (b : bool)
| JNum (n : Z)
| JStr (s : string)
| JArr (items : list JSON)
| JObj (fields : list (string * JSON)).
#[local] Set Elimination Schemes.

(** How a promise settles. *)
Inductive Promise (A : Type) : Type :=
| Resolved (value : A)
| Rejected (reason : string)
| Pending.

Arguments Resolved {A} value.
Arguments Rejected {A} reason.
Arguments Pending {A}.

(** ** The Block class *)

Module BlockClass.

(** The fields [_addBlock], [validateChain] and the queries read and
    write on a block. *)
Record Block : Type := mkBlock {
  hash : option string;
  height : Z;
  body : string;
  time : string;
  previousBlockHash : option string
}.

Definition set_hash (h : option string) (b : Block) : Block :=
  mkBlock h (height b) (body b) (time b) (previousBlockHash b).

Definition set_height (n : Z) (b : Block) : Block :=
  mkBlock (hash b) n (body b) (time b) (previousBlockHash b).

Definition set_time (t : string) (b : Block) : Block :=
  mkBlock (hash b) (height b) (body b) t (previousBlockHash b).

Definition set_previousBlockHash (h : option string) (b : Block) : Block :=
  mkBlock (hash b) (height b) (body b) (time b) h.

End BlockClass.

Abbreviation Block := BlockClass.Block.

(** ** External collaborators *)

(** [SHA256 s] is [SHA256(s).toString()] of crypto-js; [JSON_stringify] is
    [JSON.stringify] on a block (its field order is fixed by the Block
    class); [bitcoinMessage_verify] is the boolean [bitcoinMessage.verify]
    returns (a call of it that throws, as on a malformed signature, is not
    modelled: what is proved of [submitStar] is about the calls in which
    the check, when reached, returns); [encode] and [decode] are the
    reversible encoding of a body (JSON text, hex encoded) and are exact
    inverses. *)
Class Externals : Type := {
  SHA256 : string -> string;
  JSON_stringify : Block -> string;
  bitcoinMessage_verify : string -> string -> string -> bool;
  encode : JSON -> string;
  decode : string -> option JSON;
  decode_encode : forall v : JSON, decode (encode v) = Some v
}.

(** ** The JavaScript built-ins the code uses *)

Module JS.

(** [Number.prototype.toString] on an integer. *)
Definition toString (n : Z) : string :=
  NilZero.string_of_int (Z.to_int n).

(** [s.slice(0, end)]: a negative [end] counts from the end of [s]. *)
Definition slice0 (s : string) (end_ : Z) : string :=
  let len := Z.of_nat (String.length s) in
  let final := if end_ <? 0 then Z.max (len + end_) 0 else Z.min end_ len in
  String.substring 0 (Z.to_nat final) s.

(** [s.split(sep)] for a one-character separator: never empty. *)
Fixpoint split (sep : ascii) (s : string) : list string :=
  match s with
  | EmptyString => [EmptyString]
  | String c rest =>
      if Ascii.eqb c sep then EmptyString :: split sep rest
      else match split sep rest with
           | field :: fields => String c field :: fields
           | [] => [String c EmptyString]
           end
  end.

(** White space that [parseInt] skips (the ASCII part of it). *)
Definition is_white_space (c : ascii) : bool :=
  let n := nat_of_ascii c in
  ((9 <=? n) && (n <=? 13))%nat || (n =? 32)%nat.

Fixpoint trim_start (s : string) : string :=
  match s with
  | String c rest => if is_white_space c then trim_start rest else s
  | EmptyString => EmptyString
  end.

(** The value of a digit in bases up to 36. *)
Definition digit_value (c : ascii) : option Z :=
  let n := Z.of_nat (nat_of_ascii c) in
  if (48 <=? n) && (n <=? 57) then Some (n - 48)
  else if (97 <=? n) && (n <=? 122) then Some (n - 87)
  else if (65 <=? n) && (n <=? 90) then Some (n - 55)
  else None.

(** The number denoted by the longest prefix of [s] made of digits of
    radix [R]; [acc] is [None] until a digit has been read. *)
Fixpoint parse_digits (R : Z) (s : string) (acc : option Z) : option Z :=
  match s with
  | String c rest =>
      match digit_value c with
      | Some d =>
          if d <? R then parse_digits R rest (Some (default 0 acc * R + d))
          else acc
      | None => acc
      end
  | EmptyString => acc
  end.

(** [parseInt(s)] with no radix argument; [None] is [NaN]. *)
Definition parseInt (input : string) : option Z :=
  let trimmed := trim_start input in
  let '(sign, unsigned) :=
    match trimmed with
    | String "-" rest => (-1, rest)
    | String "+" rest => (1, rest)
    | _ => (1, trimmed)
    end in
  let '(R, digits) :=
    match unsigned with
    | String "0" (String "x" rest) => (16, rest)
    | String "0" (String "X" rest) => (16, rest)
    | _ => (10, unsigned)
    end in
  Z.mul sign <$> parse_digits R digits None.

(** [parseInt(v)] where [v] may be [undefined] ([None]): the argument is
    first converted to a string. *)
Definition parseInt_value (v : option string) : option Z :=
  parseInt (default "undefined" v).

(** [a - b] and [a < b] on numbers that may be [NaN]. *)
Definition sub (a b : option Z) : option Z :=
  match a, b with
  | Some x, Some y => Some (x - y)
  | _, _ => None
  end.

Definition lt (a b : option Z) : bool :=
  match a, b with
  | Some x, Some y => x <? y
  | _, _ => false
  end.

(** Truthiness of a parsed value. *)
Definition truthy (v : JSON) : bool :=
  match v with
  | JNull => false
  | JBool b => b
  | JNum n => negb (n =? 0)
  | JStr s => negb (String.eqb s EmptyString)
  | JArr _ | JObj _ => true
  end.

(** [v.name] for a value that is not [null]; [None] is [undefined].  A
    later binding of a key shadows an earlier one. *)
Fixpoint lookup_field (name : string) (fields : list (string * JSON))
  : option JSON :=
  match fields with
  | [] => None
  | (key, v) :: rest =>
      match lookup_field name rest with
      | Some w => Some w
      | None => if String.eqb key name then Some v else None
      end
  end.

Definition get (name : string) (v : JSON) : option JSON :=
  match v with
  | JObj fields => lookup_field name fields
  | _ => None
  end.

(** [s.includes(c)] for a character [c]. *)
Fixpoint includes (c : ascii) (s : string) : bool :=
  match s with
  | EmptyString => false
  | String a rest => Ascii.eqb a c || includes c rest
  end.

(** [x === s] for a string [s]. *)
Definition strict_eq_string (x : option JSON) (s : string) : bool :=
  match x with
  | Some (JStr t) => String.eqb t s
  | _ => false
  end.

End JS.

(** The number a run of decimal digits denotes after [acc]. *)
Fixpoint uint_value (d : Decimal.uint) (acc : Z) : Z :=
  match d with
  | Decimal.Nil => acc
  | Decimal.D0 l => uint_value l (acc * 10 + 0)
  | Decimal.D1 l => uint_value l (acc * 10 + 1)
  | Decimal.D2 l => uint_value l (acc * 10 + 2)
  | Decimal.D3 l => uint_value l (acc * 10 + 3)
  | Decimal.D4 l => uint_value l (acc * 10 + 4)
  | Decimal.D5 l => uint_value l (acc * 10 + 5)
  | Decimal.D6 l => uint_value l (acc * 10 + 6)
  | Decimal.D7 l => uint_value l (acc * 10 + 7)
  | Decimal.D8 l => uint_value l (acc * 10 + 8)
  | Decimal.D9 l => uint_value l (acc * 10 + 9)
  end.

(** ** The methods of a block *)

Section BlockMethods.

Context `{Externals}.

(** Modelled from the spec: the constructor of [Block] ([block.js] is not
    among the sources).  A new block carries the encoded payload; its
    hash and its link to a predecessor are still the sentinel, and height
    and time are assigned when the block is appended. *)
Definition newBlock (data : JSON) : Block :=
  BlockClass.mkBlock None 0 (encode data) EmptyString None.

(** Modelled from the spec: [recomputeHash] ([block.js] is not among the
    sources).  The hash is derived from the block's current header and
    body, the [hash] field itself excluded. *)
Definition recomputeHash (b : Block) : string :=
  SHA256 (JSON_stringify (BlockClass.set_hash None b)).

(** Modelled from the spec: [validate] ([block.js] is not among the
    sources).  A block is valid when its stored hash equals the hash
    recomputed from its current state. *)
Definition validate (b : Block) : bool :=
  bool_decide (BlockClass.hash b = Some (recomputeHash b)).

(** Modelled from the spec: [getBData], the spec's [decodeBody]
    ([block.js] is not among the sources).  It returns the structure
    recovered from the encoded body; [None] is a decoding failure. *)
Definition getBData (b : Block) : option JSON :=
  decode (BlockClass.body b).

End BlockMethods.

(** ** The Blockchain class *)

Record Blockchain : Type := mkBlockchain {
  chain : list Block;
  height : Z
}.

(** The entries of the error log of [validateChain]. *)
Inductive ValidationError : Type :=
| TamperingDetected (blockHeight : Z) (blockHash : option string)
| BrokenChain (blockHeight : Z) (previousHeight : Z).

(** The text of the [Error] built for each entry. *)
Definition error_message (e : ValidationError) : string :=
  match e with
  | TamperingDetected h stored =>
      "Tampering Detected - Invalid Block #" +:+ JS.toString h
        +:+ " with Hash: " +:+ default "null" stored
  | BrokenChain h p =>
      "Broken Chain - Invalid Link: Block at #" +:+ JS.toString h
        +:+ " is not Linked to the Correct Previous Block at #"
        +:+ JS.toString p +:+ "."
  end.

Definition InvalidChain : string := "Invalid Chain. Cannot Add this Block.".

Definition NotVerified : string := "The Message is not Verified".

Definition Expired : string :=
  "Please submit a star within 5 minutes of the signature ownership verification.".

(** One call of [bitcoinMessage.verify(message, address, signature)]. *)
Definition VerifyCall : Type := (string * string * string)%type.

Section BlockchainMethods.

Context `{Externals}.

(** [self.chain.filter((b) => b.height === h)[0]]; [None] is
    [undefined]. *)
Definition blockAtHeight (h : Z) (blocks : list Block) : option Block :=
  head (filter (fun b => BlockClass.height b = h) blocks).

(** The loop of [validateChain] over the blocks still to visit.  [None]
    is the [TypeError] raised by [previousBlock.hash] when no block has
    the height [block.height - 1]. *)
Fixpoint validateChain_loop (all blocks : list Block)
    (errorLog : list ValidationError) : option (list ValidationError) :=
  match blocks with
  | [] => Some errorLog
  | block :: rest =>
      if validate block then
        if 0 <? BlockClass.height block then
          match blockAtHeight (BlockClass.height block - 1) all with
          | Some previousBlock =>
              if bool_decide (BlockClass.previousBlockHash block
                              <> BlockClass.hash previousBlock)
              then
                validateChain_loop all rest
                  (errorLog ++ [BrokenChain (BlockClass.height block)
                                  (BlockClass.height block - 1)])
              else validateChain_loop all rest errorLog
          | None => None
          end
        else validateChain_loop all rest errorLog
      else
        validateChain_loop all rest
          (errorLog ++ [TamperingDetected (BlockClass.height block)
                          (BlockClass.hash block)])
  end.

(** [validateChain()]: resolves with the error log when it is not empty
    and with [null] ([None]) otherwise; it never rejects, and it stays
    pending when the loop throws. *)
Definition validateChain (self : Blockchain)
  : Promise (option (list ValidationError)) :=
  match validateChain_loop (chain self) (chain self) [] with
  | Some errorLog =>
      if (0 <? length errorLog)%nat then Resolved (Some errorLog)
      else Resolved None
  | None => Pending
  end.

(** [new Date().getTime().toString().slice(0, -3)] when the clock reads
    [now] milliseconds. *)
Definition timeString (now : Z) : string :=
  JS.slice0 (JS.toString now) (-3).

(** [_addBlock] up to its [await]: the block gets its height, its time
    and, on a non-empty chain, the hash of the last block; the digest of
    the block as it then is has been computed but not yet stored. *)
Definition _addBlock_seal (now : Z) (block : Block) (self : Blockchain)
  : Block * string :=
  let block := BlockClass.set_height (Z.of_nat (length (chain self))) block in
  let block := BlockClass.set_time (timeString now) block in
  let block :=
    if (0 <? length (chain self))%nat then
      match chain self !! (length (chain self) - 1)%nat with
      | Some tail =>
          BlockClass.set_previousBlockHash (BlockClass.hash tail) block
      | None => block
      end
    else block in
  (block, SHA256 (JSON_stringify block)).

(** [_addBlock] after its [await]: the digest is stored in the block, the
    block is pushed, [height] is updated and the chain is validated.  The
    promise resolves with the block when [validateChain] resolves and
    rejects when [validateChain] rejects. *)
Definition _addBlock_commit (block : Block) (digest : string)
    (self : Blockchain) : Blockchain * Promise Block :=
  let block := BlockClass.set_hash (Some digest) block in
  let chain' := chain self ++ [block] in
  let self := mkBlockchain chain' (Z.of_nat (length chain') - 1) in
  (self,
   match validateChain self with
   | Resolved _ => Resolved block
   | Rejected _ => Rejected InvalidChain
   | Pending => Pending
   end).

(** The block object as [_addBlock] leaves it. *)
Definition appended (now : Z) (block : Block) (self : Blockchain) : Block :=
  let '(block, digest) := _addBlock_seal now block self in
  BlockClass.set_hash (Some digest) block.

(** [_addBlock(block)] run to completion, the clock reading [now]. *)
Definition _addBlock (now : Z) (block : Block) (self : Blockchain)
  : Blockchain * Promise Block :=
  let '(block, digest) := _addBlock_seal now block self in
  _addBlock_commit block digest self.

(** Two calls of [_addBlock] started one right after the other, before
    the continuation of either has run: both read the chain before either
    writes it, then the two continuations run in the order of the calls. *)
Definition _addBlock_overlapping (now1 : Z) (block1 : Block)
    (now2 : Z) (block2 : Block) (self : Blockchain) : Blockchain :=
  let '(block1, digest1) := _addBlock_seal now1 block1 self in
  let '(block2, digest2) := _addBlock_seal now2 block2 self in
  fst (_addBlock_commit block2 digest2
         (fst (_addBlock_commit block1 digest1 self))).

Definition GenesisData : JSON := JObj [("data", JStr "Genesis Block")].

(** [initializeChain()]. *)
Definition initializeChain (now : Z) (self : Blockchain) : Blockchain :=
  if bool_decide (height self = -1) then
    fst (_addBlock now (newBlock GenesisData) self)
  else self.

(** [new Blockchain()], the clock reading [now], once the continuation of
    the [_addBlock] it starts has run: the object as every later task
    finds it.  The object as the constructor returns it, its genesis block
    still waiting, is [new_Blockchain]. *)
Definition constructor (now : Z) : Blockchain :=
  initializeChain now (mkBlockchain [] (-1)).


(** [requestMessageOwnershipVerification(address)]. *)
Definition requestMessageOwnershipVerification (now : Z) (address : string)
  : Promise string :=
  Resolved (address +:+ ":" +:+ timeString now +:+ ":starRegistry").

Definition StarData (address : string) (star : JSON) : JSON :=
  JObj [("owner", JStr address); ("star", star)].

(** [parseInt(message.split(":")[1])]: the time embedded in a message. *)
Definition messageTime (message : string) : option Z :=
  JS.parseInt_value (JS.split ":" message !! 1%nat).

(** [parseInt(new Date().getTime().toString().slice(0, -3))] when the
    clock reads [now] milliseconds. *)
Definition currentTime (now : Z) : option Z :=
  JS.parseInt (timeString now).

(** [submitStar(address, message, signature, star)].  The clock reads
    [now] in [submitStar] and [now'] in the [_addBlock] it starts.  The
    promise of [_addBlock] is dropped; the promise returned resolves with
    the block object that [_addBlock] seals.  The third component lists
    the calls of [bitcoinMessage.verify] made. *)
Definition submitStar (now now' : Z) (address message signature : string)
    (star : JSON) (self : Blockchain)
  : Blockchain * Promise Block * list VerifyCall :=
  let messageTime := messageTime message in
  let currentTime := currentTime now in
  if JS.lt (JS.sub currentTime messageTime) (Some 300) then
    if bitcoinMessage_verify message address signature then
      let block := newBlock (StarData address star) in
      let '(self', _) := _addBlock now' block self in
      (self', Resolved (appended now' block self),
       [(message, address, signature)])
    else (self, Rejected NotVerified, [(message, address, signature)])
  else (self, Rejected Expired, []).

(** [getBlockByHash(hash)]; [None] is [null]. *)
Definition getBlockByHash (hash : string) (self : Blockchain)
  : Promise (option Block) :=
  Resolved (head (filter (fun p => BlockClass.hash p = Some hash) (chain self))).


(** The callback of the [forEach] in [getStarsByWalletAddress]: what it
    does to [stars] for the block [b]. *)
Definition collectStar (address : string) (stars : list JSON) (b : Block)
  : list JSON :=
  match getBData b with
  | Some blockBody =>
      if JS.truthy blockBody then
        if JS.strict_eq_string (JS.get "owner" blockBody) address
        then stars ++ [blockBody]
        else stars
      else stars
  | None => stars
  end.

(** [getStarsByWalletAddress(address)]. *)
Definition getStarsByWalletAddress (address : string) (self : Blockchain)
  : Promise (list JSON) :=
  Resolved (fold_left (collectStar address) (chain self) []).

End BlockchainMethods.

(** ** Histories of a chain *)

(** The operations that change a chain after its construction: the
    add-block protocol on a new block with a given payload, a star
    submission, and a further call of [initializeChain]. *)
Inductive Operation : Type :=
| AppendBlock (now : Z) (data : JSON)
| SubmitStar (now now' : Z) (address message signature : string) (star : JSON)
| InitializeChain (now : Z).

Section Histories.

Context `{Externals}.

Definition step (self : Blockchain) (op : Operation) : Blockchain :=
  match op with
  | AppendBlock now data => fst (_addBlock now (newBlock data) self)
  | SubmitStar now now' address message signature star =>
      fst (fst (submitStar now now' address message signature star self))
  | InitializeChain now => initializeChain now self
  end.

(** The chain constructed when the clock reads [now0], after the
    operations [ops] in turn. *)
Definition run (now0 : Z) (ops : list Operation) : Blockchain :=
  fold_left step ops (constructor now0).

(** The star submissions of a history that pass both checks of
    [submitStar], as the payloads they store, oldest first. *)
Definition accepted (op : Operation) : option (string * JSON) :=
  match op with
  | SubmitStar now _ address message signature star =>
      if JS.lt (JS.sub (currentTime now) (messageTime message)) (Some 300)
         && bitcoinMessage_verify message address signature
      then Some (address, star)
      else None
  | _ => None
  end.

(** The payload an operation stores in a new block, if it stores one (a
    further [initializeChain] stores none once the genesis block exists). *)
Definition stored (op : Operation) : option JSON :=
  match op with
  | AppendBlock _ data => Some data
  | SubmitStar _ _ _ _ _ _ =>
      match accepted op with
      | Some (owner, star) => Some (StarData owner star)
      | None => None
      end
  | InitializeChain _ => None
  end.

(** The block an operation appends to the chain [self], if it appends
    one. *)
Definition appendedBy (self : Blockchain) (op : Operation) : option Block :=
  match op with
  | AppendBlock now data => Some (appended now (newBlock data) self)
  | SubmitStar _ now' _ _ _ _ =>
      match accepted op with
      | Some (owner, star) =>
          Some (appended now' (newBlock (StarData owner star)) self)
      | None => None
      end
  | InitializeChain now =>
      if bool_decide (height self = -1)
      then Some (appended now (newBlock GenesisData) self)
      else None
  end.

End Histories.

(** ** Calls in one task *)

(** The object together with the continuations of [_addBlock] that wait
    behind their [await], oldest first: each is a block, its fields
    assigned, and the digest computed for it.  Nothing runs a continuation
    before the task that made the call has ended. *)
Record Loop : Type := mkLoop {
  object : Blockchain;
  waiting : list (Block * string)
}.

(** What the event loop does next: a call of an operation, or the end of a
    task, when the waiting continuations run. *)
Inductive Event : Type :=
| Call (op : Operation)
| TaskEnds.

Section Tasks.

Context `{Externals}.

(** [_addBlock(block)] up to its [await]: the object is read, not yet
    written. *)
Definition call_addBlock (now : Z) (block : Block) (l : Loop) : Loop :=
  mkLoop (object l) (waiting l ++ [_addBlock_seal now block (object l)]).

(** [initializeChain()] up to the [await] of the [_addBlock] it starts. *)
Definition call_initializeChain (now : Z) (l : Loop) : Loop :=
  if bool_decide (height (object l) = -1) then
    call_addBlock now (newBlock GenesisData) l
  else l.

(** [new Blockchain()] as the constructor returns it. *)
Definition new_Blockchain (now : Z) : Loop :=
  call_initializeChain now (mkLoop (mkBlockchain [] (-1)) []).

(** An operation up to the [await] of the [_addBlock] it starts, if it
    starts one. *)
Definition call (op : Operation) (l : Loop) : Loop :=
  match op with
  | AppendBlock now data => call_addBlock now (newBlock data) l
  | SubmitStar now now' address message signature star =>
      if JS.lt (JS.sub (currentTime now) (messageTime message)) (Some 300) then
        if bitcoinMessage_verify message address signature then
          call_addBlock now' (newBlock (StarData address star)) l
        else l
      else l
  | InitializeChain now => call_initializeChain now l
  end.

(** One continuation of [_addBlock] run on the object. *)
Definition resume (self : Blockchain) (k : Block * string) : Blockchain :=
  fst (_addBlock_commit (fst k) (snd k) self).

(** The end of a task: the waiting continuations run in the order of the
    calls. *)
Definition drain (l : Loop) : Loop :=
  mkLoop (fold_left resume (waiting l) (object l)) [].

Definition react (l : Loop) (e : Event) : Loop :=
  match e with
  | Call op => call op l
  | TaskEnds => drain l
  end.

(** The object constructed when the clock reads [now0], after the events
    [events] in turn. *)
Definition play (now0 : Z) (events : list Event) : Loop :=
  fold_left react events (new_Blockchain now0).

(** The events of a history in which the task of construction and every
    call after it ends before the next call is made. *)
Definition one_by_one (ops : list Operation) : list Event :=
  TaskEnds :: flat_map (fun op => [Call op; TaskEnds]) ops.

End Tasks.

(** ** The properties the specification asks for *)

Section Specification.

Context `{Externals}.

(** Linkage: every block but the first names the hash of the block before
    it. *)
Definition linked (blocks : list Block) : Prop :=
  forall (h : nat) (b p : Block),
    (0 < h)%nat ->
    blocks !! h = Some b -> blocks !! (h - 1)%nat = Some p ->
    BlockClass.previousBlockHash b = BlockClass.hash p.

(** Every block sits at the index that is its height. *)
Definition indexed (blocks : list Block) : Prop :=
  forall (i : nat) (b : Block),
    blocks !! i = Some b -> BlockClass.height b = Z.of_nat i.

(** Every block's stored hash is the hash recomputed from its state. *)
Definition sealed (blocks : list Block) : Prop :=
  forall b : Block, b ∈ blocks -> validate b = true.

(** The denormalised height is the last index, every block sits at its
    height, names its predecessor's hash and carries its own. *)
Record consistent (self : Blockchain) : Prop := mkConsistent {
  consistent_height : height self = Z.of_nat (length (chain self)) - 1;
  consistent_indexed : indexed (chain self);
  consistent_linked : linked (chain self);
  consistent_sealed : sealed (chain self)
}.

(** The errors the validation engine is specified to report for one block:
    tampering and a broken link are two independent checks. *)
Definition specified_errors (all : list Block) (block : Block)
  : list ValidationError :=
  (if validate block then []
   else [TamperingDetected (BlockClass.height block) (BlockClass.hash block)])
  ++
  (if 0 <? BlockClass.height block then
     match blockAtHeight (BlockClass.height block - 1) all with
     | Some previousBlock =>
         if bool_decide (BlockClass.previousBlockHash block
                         <> BlockClass.hash previousBlock)
         then [BrokenChain (BlockClass.height block)
                 (BlockClass.height block - 1)]
         else []
     | None => []
     end
   else []).

(** The errors [validateChain] reports for one block: the link of a block
    is looked at only when its hash is right. *)
Definition reported_errors (all : list Block) (block : Block)
  : list ValidationError :=
  if validate block then
    if 0 <? BlockClass.height block then
      match blockAtHeight (BlockClass.height block - 1) all with
      | Some previousBlock =>
          if bool_decide (BlockClass.previousBlockHash block
                          <> BlockClass.hash previousBlock)
          then [BrokenChain (BlockClass.height block)
                  (BlockClass.height block - 1)]
          else []
      | None => []
      end
    else []
  else [TamperingDetected (BlockClass.height block) (BlockClass.hash block)].

(** Every block whose link is looked at has a block one below it. *)
Definition predecessors_present (blocks : list Block) : Prop :=
  forall b : Block,
    b ∈ blocks -> validate b = true -> 0 < BlockClass.height b ->
    is_Some (blockAtHeight (BlockClass.height b - 1) blocks).

(** The specification of the add-block protocol: when the validation at
    its end reports errors the chain is left as it was and the caller gets
    an [InvalidChain] rejection. *)
Definition append_is_atomic (now : Z) (block : Block) (self : Blockchain)
  : Prop :=
  forall log : list ValidationError,
    validateChain (fst (_addBlock now block self)) = Resolved (Some log) ->
    fst (_addBlock now block self) = self
    /\ snd (_addBlock now block self) = Rejected InvalidChain.

(** A chain without violations as [validateChain] looks at it: every
    block passes its hash check, and every block of positive height finds a
    block one below it and names its hash. *)
Definition intact (blocks : list Block) : Prop :=
  forall b : Block,
    b ∈ blocks ->
    validate b = true
    /\ (0 < BlockClass.height b ->
        exists p : Block,
          blockAtHeight (BlockClass.height b - 1) blocks = Some p
          /\ BlockClass.previousBlockHash b = BlockClass.hash p).

(** A chain without violations: no block has an error to report. *)
Definition no_violations (blocks : list Block) : Prop :=
  forall b : Block, b ∈ blocks -> specified_errors blocks b = [].

(** A decoded body belongs to [address]. *)
Definition owns (address : string) (blockBody : JSON) : bool :=
  JS.truthy blockBody
  && JS.strict_eq_string (JS.get "owner" blockBody) address.

(** The decoded bodies owned by [address], in chain order. *)
Definition owned_bodies (address : string) (blocks : list Block) : list JSON :=
  omap (fun b =>
          match getBData b with
          | Some blockBody =>
              if owns address blockBody then Some blockBody else None
          | None => None
          end) blocks.

(** The [star] fields of the decoded bodies owned by [address], in chain
    order: what the query layer is specified to return. *)
Definition owned_stars (address : string) (blocks : list Block)
  : list (option JSON) :=
  JS.get "star" <$> owned_bodies address blocks.

End Specification.

(** ** A concrete set of collaborators *)

(** The theorems below hold for every [Externals].  To evaluate the
    operations on concrete inputs one instance is fixed here: bodies are
    encoded as bit strings through an injective numbering of JSON values,
    the digest of a text is a 32-bit polynomial checksum, and a signature
    is valid when it spells out the address and the message. *)

Module Demo.

Definition Leaf : Type := (bool + (Z + string))%type.

Fixpoint toTree (v : JSON) : gen_tree Leaf :=
  match v with
  | JNull => GenNode 0 []
  | JBool b => GenLeaf (inl b)
  | JNum n => GenLeaf (inr (inl n))
  | JStr s => GenLeaf (inr (inr s))
  | JArr items => GenNode 1 (map toTree items)
  | JObj fields =>
      GenNode 2
        (map (fun kv => match kv with
                        | (k, w) => GenNode 3 [GenLeaf (inr (inr k)); toTree w]
                        end) fields)
  end.

Fixpoint ofTree (t : gen_tree Leaf) : option JSON :=
  match t with
  | GenLeaf (inl b) => Some (JBool b)
  | GenLeaf (inr (inl n)) => Some (JNum n)
  | GenLeaf (inr (inr s)) => Some (JStr s)
  | GenNode 0 [] => Some JNull
  | GenNode 1 ts => JArr <$> mapM ofTree ts
  | GenNode 2 ts =>
      JObj <$>
        mapM (fun t => match t with
                       | GenNode 3 [GenLeaf (inr (inr k)); t'] =>
                           pair k <$> ofTree t'
                       | _ => None
                       end) ts
  | _ => None
  end.

Fixpoint bits (p : positive) : string :=
  match p with
  | xH => EmptyString
  | xO q => String "0" (bits q)
  | xI q => String "1" (bits q)
  end.

Fixpoint ofBits (s : string) : option positive :=
  match s with
  | EmptyString => Some xH
  | String "0" rest => xO <$> ofBits rest
  | String "1" rest => xI <$> ofBits rest
  | String _ _ => None
  end.

Definition encodeBody (v : JSON) : string :=
  bits (countable.encode (toTree v)).

Definition decodeBody (s : string) : option JSON :=
  p ← ofBits s; t ← countable.decode p; ofTree t.

Definition quote (s : string) : string :=
  String (ascii_of_nat 34) s +:+ String (ascii_of_nat 34) EmptyString.

Definition nullable (s : option string) : string :=
  match s with
  | Some t => quote t
  | None => "null"
  end.

Definition stringifyBlock (b : Block) : string :=
  "{" +:+ quote "hash" +:+ ":" +:+ nullable (BlockClass.hash b)
  +:+ "," +:+ quote "height" +:+ ":" +:+ JS.toString (BlockClass.height b)
  +:+ "," +:+ quote "body" +:+ ":" +:+ quote (BlockClass.body b)
  +:+ "," +:+ quote "time" +:+ ":" +:+ quote (BlockClass.time b)
  +:+ "," +:+ quote "previousBlockHash" +:+ ":"
  +:+ nullable (BlockClass.previousBlockHash b) +:+ "}".

Fixpoint checksum (s : string) (acc : Z) : Z :=
  match s with
  | EmptyString => acc
  | String c rest =>
      checksum rest ((acc * 31 + Z.of_nat (nat_of_ascii c)) mod 2 ^ 32)
  end.

Definition digest (s : string) : string := JS.toString (checksum s 7).

Definition sign (address message : string) : string :=
  address +:+ " signed " +:+ message.

Definition verify (message address signature : string) : bool :=
  String.eqb signature (sign address message).

End Demo.

(** * Verification *)

(** ** The concrete collaborators are collaborators *)

Section JSONInduction.

Variable P : JSON -> Prop.
Hypothesis PNull : P JNull.
Hypothesis PBool : forall b, P (JBool b).
Hypothesis PNum : forall n, P (JNum n).
Hypothesis PStr : forall s, P (JStr s).
Hypothesis PArr : forall items, Forall P items -> P (JArr items).
Hypothesis PObj : forall fields, Forall (fun kv => P (snd kv)) fields -> P (JObj fields).

Fixpoint JSON_induction (v : JSON) : P v :=
  match v with
  | JNull => PNull
  | JBool b => PBool b
  | JNum n => PNum n
  | JStr s => PStr s
  | JArr items =>
      PArr items
        ((fix all (l : list JSON) : Forall P l :=
            match l with
            | [] => Forall_nil P
            | w :: l' => Forall_cons P w l' (JSON_induction w) (all l')
            end) items)
  | JObj fields =>
      PObj fields
        ((fix all (l : list (string * JSON)) : Forall (fun kv => P (snd kv)) l :=
            match l with
            | [] => Forall_nil _
            | (k, w) :: l' =>
                Forall_cons (fun kv => P (snd kv)) (k, w) l'
                  (JSON_induction w) (all l')
            end) fields)
  end.

End JSONInduction.

Lemma Demo_ofTree_toTree (v : JSON) : Demo.ofTree (Demo.toTree v) = Some v.
Proof.
  induction v as [ | b | n | s | items IH | fields IH ] using JSON_induction;
    try reflexivity.
  - cbn [Demo.toTree Demo.ofTree].
    assert (E : mapM Demo.ofTree (map Demo.toTree items) = Some items).
    { induction IH as [ | w l Hw _ IHl ]; [ reflexivity | ].
      cbn [map mapM]. rewrite Hw. simpl. rewrite IHl. reflexivity. }
    rewrite E. reflexivity.
  - cbn [Demo.toTree Demo.ofTree].
    match goal with |- JObj <$> ?m = _ => assert (E : m = Some fields) end.
    { induction IH as [ | [k w] l Hw _ IHl ]; [ reflexivity | ].
      cbn [map mapM snd] in *. rewrite Hw. simpl. rewrite IHl. reflexivity. }
    rewrite E. reflexivity.
Qed.

Lemma Demo_ofBits_bits (p : positive) : Demo.ofBits (Demo.bits p) = Some p.
Proof.
  induction p as [ q IH | q IH | ]; simpl; [ | | reflexivity ];
    rewrite IH; reflexivity.
Qed.

Lemma Demo_decode_encode (v : JSON) :
  Demo.decodeBody (Demo.encodeBody v) = Some v.
Proof.
  unfold Demo.decodeBody, Demo.encodeBody.
  rewrite Demo_ofBits_bits. simpl.
  rewrite countable.decode_encode. simpl. apply Demo_ofTree_toTree.
Qed.

Definition demo : Externals := {|
  SHA256 := Demo.digest;
  JSON_stringify := Demo.stringifyBlock;
  bitcoinMessage_verify := Demo.verify;
  encode := Demo.encodeBody;
  decode := Demo.decodeBody;
  decode_encode := Demo_decode_encode
|}.

(** Chains to evaluate on: the chain as constructed, the chain after one
    star of [alice], the first with the stored hash of the genesis block
    overwritten, and the second with the link of block 1 overwritten. *)

Definition alice : string := "1AliceWallet".

Definition challenge : string := "1AliceWallet:1700000000:starRegistry".

Definition polaris : JSON :=
  JObj [("dec", JStr "89 15 51"); ("ra", JStr "2h 31m 49s");
        ("story", JStr "Polaris")].

Definition polarisBlock : Block := newBlock (H := demo) polaris.

Definition bob : string := "1BobWallet".

Definition bobChallenge : string := "1BobWallet:1700000000:starRegistry".

Definition vega : JSON :=
  JObj [("dec", JStr "38 47 1"); ("ra", JStr "18h 36m 56s");
        ("story", JStr "Vega")].

Definition sirius : JSON :=
  JObj [("dec", JStr "-16 42 58"); ("ra", JStr "6h 45m 8s");
        ("story", JStr "Sirius")].

(** Three stars: two of [alice], then one of [bob]. *)
Definition threeStars : list Operation :=
  [SubmitStar 1700000100000 1700000100456 alice challenge
     (Demo.sign alice challenge) polaris;
   SubmitStar 1700000110000 1700000110222 alice challenge
     (Demo.sign alice challenge) vega;
   SubmitStar 1700000120000 1700000120333 bob bobChallenge
     (Demo.sign bob bobChallenge) sirius].

Definition fresh : Blockchain := constructor (H := demo) 1700000000123.

Definition oneStar : Blockchain :=
  run (H := demo) 1700000000123
    [SubmitStar 1700000100000 1700000100456 alice challenge
       (Demo.sign alice challenge) polaris].

Definition overwritten : Blockchain :=
  mkBlockchain
    (alter (BlockClass.set_hash (Some "0000")) 0%nat (chain fresh))
    (height fresh).

Definition relinked : Blockchain :=
  mkBlockchain
    (alter (BlockClass.set_previousBlockHash (Some "0000")) 1%nat
       (chain oneStar))
    (height oneStar).

(** The task of construction ends, then [alice] submits two stars in one
    task. *)
Definition twoAtOnce : list Event :=
  [TaskEnds;
   Call (SubmitStar 1700000100000 1700000100456 alice challenge
           (Demo.sign alice challenge) polaris);
   Call (SubmitStar 1700000100001 1700000100457 alice challenge
           (Demo.sign alice challenge) vega);
   TaskEnds].

(** The genesis block of [fresh] and the block of [alice] in [oneStar]. *)

Definition genesisBlock : Block :=
  appended (H := demo) 1700000000123 (newBlock (H := demo) GenesisData)
    (mkBlockchain [] (-1)).

Definition aliceBlock : Block :=
  appended (H := demo) 1700000100456
    (newBlock (H := demo) (StarData alice polaris)) fresh.

(** ** Lookup by height *)

Section Lookup.

Context `{Externals}.

Lemma blockAtHeight_offset (blocks : list Block) :
  forall (k i : nat),
    (forall (j : nat) (b : Block),
        blocks !! j = Some b -> BlockClass.height b = Z.of_nat (k + j)) ->
    blockAtHeight (Z.of_nat (k + i)) blocks = blocks !! i.
Proof.
  unfold blockAtHeight.
  induction blocks as [ | b blocks IH ]; intros k i Hidx.
  - reflexivity.
  - pose proof (Hidx 0%nat b eq_refl) as Hb.
    destruct i as [ | i ].
    + rewrite filter_cons_True by (rewrite Hb; reflexivity). reflexivity.
    + rewrite filter_cons_False by (rewrite Hb; lia).
      replace (k + S i)%nat with (S k + i)%nat by lia.
      apply IH. intros j c Hj.
      rewrite (Hidx (S j) c Hj). f_equal. lia.
Qed.

Lemma blockAtHeight_indexed (blocks : list Block) (i : nat) :
  indexed blocks -> blockAtHeight (Z.of_nat i) blocks = blocks !! i.
Proof.
  intros Hidx. apply (blockAtHeight_offset blocks 0 i). exact Hidx.
Qed.


End Lookup.

(** ** The validation loop *)

Section Validation.

Context `{Externals}.

Lemma validateChain_loop_reported (all blocks : list Block) :
  forall log : list ValidationError,
    (forall b : Block,
        b ∈ blocks -> validate b = true -> 0 < BlockClass.height b ->
        is_Some (blockAtHeight (BlockClass.height b - 1) all)) ->
    validateChain_loop all blocks log
    = Some (log ++ flat_map (reported_errors all) blocks).
Proof.
  induction blocks as [ | block rest IH ]; intros log Hpred.
  - simpl. rewrite app_nil_r. reflexivity.
  - assert (Hrest : forall b : Block,
               b ∈ rest -> validate b = true -> 0 < BlockClass.height b ->
               is_Some (blockAtHeight (BlockClass.height b - 1) all)).
    { intros b Hb. apply Hpred. right. exact Hb. }
    cbn [validateChain_loop flat_map]. unfold reported_errors at 1.
    destruct (validate block) eqn:Hv.
    + destruct (0 <? BlockClass.height block) eqn:Hh.
      * destruct (Hpred block) as [p Hp];
          [ left | exact Hv | apply Z.ltb_lt; exact Hh | ].
        rewrite Hp.
        destruct (bool_decide _).
        -- rewrite IH by exact Hrest. rewrite <- app_assoc. reflexivity.
        -- rewrite IH by exact Hrest. reflexivity.
      * rewrite IH by exact Hrest. reflexivity.
    + rewrite IH by exact Hrest. rewrite <- app_assoc. reflexivity.
Qed.

(** A loop that ends has found every predecessor it looked for. *)
Lemma validateChain_loop_ends (all blocks : list Block) :
  forall log result : list ValidationError,
    validateChain_loop all blocks log = Some result ->
    forall b : Block,
      b ∈ blocks -> validate b = true -> 0 < BlockClass.height b ->
      is_Some (blockAtHeight (BlockClass.height b - 1) all).
Proof.
  induction blocks as [ | block rest IH ]; intros log result Hloop b Hb Hv Hpos.
  - inversion Hb.
  - cbn [validateChain_loop] in Hloop.
    apply elem_of_cons in Hb as [ -> | Hb ].
    + rewrite Hv, (proj2 (Z.ltb_lt _ _) Hpos) in Hloop.
      destruct (blockAtHeight _ all) as [ p | ]; [ eauto | discriminate ].
    + destruct (validate block); [ | eauto ].
      destruct (0 <? BlockClass.height block); [ | eauto ].
      destruct (blockAtHeight (BlockClass.height block - 1) all);
        [ | discriminate ].
      destruct (bool_decide _); eauto.
Qed.

Lemma validateChain_never_rejects (self : Blockchain) (reason : string) :
  validateChain self <> Rejected reason.
Proof.
  unfold validateChain.
  destruct (validateChain_loop _ _ _) as [ log | ]; [ | discriminate ].
  destruct (0 <? length log)%nat; discriminate.
Qed.

Lemma validateChain_resolved (self : Blockchain) (log : list ValidationError) :
  validateChain_loop (chain self) (chain self) [] = Some log ->
  validateChain self
  = Resolved (match log with [] => None | _ :: _ => Some log end).
Proof.
  intros Hlog. unfold validateChain. rewrite Hlog.
  destruct log; reflexivity.
Qed.

(** [validateChain] settles exactly on the chains in which every block
    whose link is looked at has a block one below it. *)
Lemma validateChain_settles (self : Blockchain) :
  validateChain self <> Pending <-> predecessors_present (chain self).
Proof.
  unfold validateChain. split.
  - intros Hsettled b Hb Hv Hpos.
    destruct (validateChain_loop _ _ _) as [ log | ] eqn:Hloop;
      [ | congruence ].
    exact (validateChain_loop_ends _ _ _ _ Hloop b Hb Hv Hpos).
  - intros Hpred.
    rewrite validateChain_loop_reported by exact Hpred.
    destruct (0 <? length _)%nat; discriminate.
Qed.

End Validation.

(** ** What appending does to a chain *)

Section Appending.

Context `{Externals}.

Lemma _addBlock_fst (now : Z) (block : Block) (self : Blockchain) :
  fst (_addBlock now block self)
  = mkBlockchain (chain self ++ [appended now block self])
                 (Z.of_nat (length (chain self))).
Proof.
  unfold _addBlock, appended.
  destruct (_addBlock_seal now block self) as [b d].
  unfold _addBlock_commit. cbn [fst]. f_equal.
  rewrite length_app. simpl. lia.
Qed.

(** [_addBlock] resolves with the block it appended or stays pending; the
    branch that rejects is never taken. *)
Lemma _addBlock_snd (now : Z) (block : Block) (self : Blockchain) :
  snd (_addBlock now block self) = Resolved (appended now block self)
  \/ snd (_addBlock now block self) = Pending.
Proof.
  unfold _addBlock, appended.
  destruct (_addBlock_seal now block self) as [b d].
  unfold _addBlock_commit. cbn [snd].
  match goal with |- context [validateChain ?s] =>
    pose proof (validateChain_never_rejects s) as Hnever;
    destruct (validateChain s) as [ log | reason | ]
  end.
  - left. reflexivity.
  - exfalso. exact (Hnever reason eq_refl).
  - right. reflexivity.
Qed.

Lemma appended_height (now : Z) (block : Block) (self : Blockchain) :
  BlockClass.height (appended now block self)
  = Z.of_nat (length (chain self)).
Proof.
  unfold appended, _addBlock_seal.
  destruct (0 <? length (chain self))%nat; [ | reflexivity ].
  destruct (chain self !! _); reflexivity.
Qed.

Lemma appended_body (now : Z) (block : Block) (self : Blockchain) :
  BlockClass.body (appended now block self) = BlockClass.body block.
Proof.
  unfold appended, _addBlock_seal.
  destruct (0 <? length (chain self))%nat; [ | reflexivity ].
  destruct (chain self !! _); reflexivity.
Qed.


(** On a non-empty chain the new block names the hash of the last block;
    on the empty chain its link is left as it came. *)
Lemma appended_previousBlockHash (now : Z) (block : Block) (self : Blockchain) :
  BlockClass.previousBlockHash (appended now block self)
  = match chain self !! (length (chain self) - 1)%nat with
    | Some tail => BlockClass.hash tail
    | None => BlockClass.previousBlockHash block
    end.
Proof.
  unfold appended, _addBlock_seal.
  destruct (0 <? length (chain self))%nat eqn:Hlen.
  - destruct (chain self !! _); reflexivity.
  - apply Nat.ltb_ge in Hlen.
    destruct (chain self) as [ | b l ]; [ reflexivity | simpl in Hlen; lia ].
Qed.

(** The digest stored in the new block is taken over the block as it is
    when [_addBlock] hashes it: all its final fields, and in the place of
    the hash whatever the block came with. *)
Lemma appended_hash (now : Z) (block : Block) (self : Blockchain) :
  BlockClass.hash (appended now block self)
  = Some (SHA256 (JSON_stringify
                    (BlockClass.set_hash (BlockClass.hash block)
                       (appended now block self)))).
Proof.
  unfold appended, _addBlock_seal.
  destruct (0 <? length (chain self))%nat;
    [ destruct (chain self !! _) | ]; destruct block; reflexivity.
Qed.

(** A block that comes without a hash is valid once appended. *)
Lemma appended_validate (now : Z) (block : Block) (self : Blockchain) :
  BlockClass.hash block = None ->
  validate (appended now block self) = true.
Proof.
  intros Hnone. unfold validate, recomputeHash.
  rewrite appended_hash, Hnone. apply bool_decide_eq_true. reflexivity.
Qed.

End Appending.

(** ** The invariant of a chain built by the operations *)

Section Invariant.

Context `{Externals}.

Lemma consistent_empty : consistent (mkBlockchain [] (-1)).
Proof.
  split.
  - reflexivity.
  - intros i b Hi. discriminate.
  - intros h b p _ Hb. discriminate.
  - intros b Hb. inversion Hb.
Qed.

Lemma consistent_addBlock (now : Z) (block : Block) (self : Blockchain) :
  BlockClass.hash block = None ->
  consistent self ->
  consistent (fst (_addBlock now block self)).
Proof.
  intros Hnone [Hh Hidx Hlink Hseal].
  rewrite _addBlock_fst. split; cbn [chain height].
  - rewrite length_app. simpl. lia.
  - intros i b Hi.
    apply lookup_app_Some in Hi as [Hi | [Hge Hi]].
    + apply Hidx. exact Hi.
    + apply list_lookup_singleton_Some in Hi as [Hi <-].
      rewrite appended_height. f_equal. lia.
  - intros h b p Hpos Hb Hp.
    apply lookup_app_Some in Hb as [Hb | [Hge Hb]].
    + pose proof (lookup_lt_Some _ _ _ Hb) as Hlt.
      rewrite lookup_app_l in Hp by lia.
      exact (Hlink h b p Hpos Hb Hp).
    + apply list_lookup_singleton_Some in Hb as [Hb <-].
      assert (h = length (chain self)) as -> by lia.
      rewrite lookup_app_l in Hp by lia.
      rewrite appended_previousBlockHash, Hp. reflexivity.
  - intros b Hb.
    apply elem_of_app in Hb as [Hb | Hb].
    + apply Hseal. exact Hb.
    + apply list_elem_of_singleton in Hb as ->.
      apply appended_validate. exact Hnone.
Qed.

Lemma consistent_initializeChain (now : Z) (self : Blockchain) :
  consistent self -> consistent (initializeChain now self).
Proof.
  intros Hc. unfold initializeChain.
  destruct (bool_decide _); [ | exact Hc ].
  apply consistent_addBlock; [ reflexivity | exact Hc ].
Qed.

Lemma submitStar_fst (now now' : Z) (address message signature : string)
    (star : JSON) (self : Blockchain) :
  fst (fst (submitStar now now' address message signature star self))
  = match accepted (SubmitStar now now' address message signature star) with
    | Some (owner, payload) =>
        fst (_addBlock now' (newBlock (StarData owner payload)) self)
    | None => self
    end.
Proof.
  unfold submitStar, accepted.
  destruct (JS.lt _ _); [ | reflexivity ].
  destruct (bitcoinMessage_verify _ _ _); [ | reflexivity ].
  cbn [andb]. destruct (_addBlock _ _ _). reflexivity.
Qed.

Lemma consistent_step (self : Blockchain) (op : Operation) :
  consistent self -> consistent (step self op).
Proof.
  intros Hc. destruct op as [ now data | now now' a m sg star | now ];
    cbn [step].
  - apply consistent_addBlock; [ reflexivity | exact Hc ].
  - rewrite submitStar_fst.
    destruct (accepted _) as [ [owner payload] | ]; [ | exact Hc ].
    apply consistent_addBlock; [ reflexivity | exact Hc ].
  - apply consistent_initializeChain. exact Hc.
Qed.

Lemma consistent_steps (ops : list Operation) :
  forall self : Blockchain,
    consistent self -> consistent (fold_left step ops self).
Proof.
  induction ops as [ | op ops IH ]; intros self Hc.
  - exact Hc.
  - simpl. apply IH. apply consistent_step. exact Hc.
Qed.

Lemma consistent_run (now0 : Z) (ops : list Operation) :
  consistent (run now0 ops).
Proof.
  unfold run, constructor. apply consistent_steps.
  apply consistent_initializeChain. exact consistent_empty.
Qed.

(** A consistent chain has every predecessor a link check looks for. *)
Lemma consistent_predecessors (self : Blockchain) :
  consistent self -> predecessors_present (chain self).
Proof.
  intros [_ Hidx _ _] b Hb _ Hpos.
  apply list_elem_of_lookup in Hb as [i Hi].
  pose proof (lookup_lt_Some _ _ _ Hi) as Hlt.
  rewrite (Hidx i b Hi) in *.
  replace (Z.of_nat i - 1) with (Z.of_nat (i - 1)) by lia.
  rewrite blockAtHeight_indexed by exact Hidx.
  apply lookup_lt_is_Some. lia.
Qed.

Lemma consistent_reported (self : Blockchain) (b : Block) :
  consistent self -> b ∈ chain self ->
  reported_errors (chain self) b = [].
Proof.
  intros [Hh Hidx Hlink Hseal] Hb. unfold reported_errors.
  rewrite (Hseal b Hb).
  destruct (0 <? BlockClass.height b) eqn:Hpos; [ | reflexivity ].
  apply Z.ltb_lt in Hpos.
  apply list_elem_of_lookup in Hb as [i Hi].
  rewrite (Hidx i b Hi) in *.
  replace (Z.of_nat i - 1) with (Z.of_nat (i - 1)) by lia.
  rewrite blockAtHeight_indexed by exact Hidx.
  destruct (chain self !! (i - 1)%nat) as [ p | ] eqn:Hp; [ | reflexivity ].
  rewrite bool_decide_eq_false_2; [ reflexivity | ].
  intros Hne. apply Hne. apply (Hlink i b p); [ lia | exact Hi | exact Hp ].
Qed.

Lemma consistent_validateChain_loop (self : Blockchain) :
  consistent self ->
  validateChain_loop (chain self) (chain self) [] = Some [].
Proof.
  intros Hc.
  rewrite validateChain_loop_reported by (apply consistent_predecessors; exact Hc).
  f_equal. simpl.
  assert (Hall : forall blocks : list Block,
             (forall b, b ∈ blocks -> b ∈ chain self) ->
             flat_map (reported_errors (chain self)) blocks = []).
  { induction blocks as [ | b blocks IH ]; intros Hsub; [ reflexivity | ].
    simpl. rewrite (consistent_reported self b Hc) by (apply Hsub; left).
    apply IH. intros c Hc'. apply Hsub. right. exact Hc'. }
  apply Hall. auto.
Qed.

Lemma consistent_validateChain (self : Blockchain) :
  consistent self -> validateChain self = Resolved None.
Proof.
  intros Hc.
  rewrite (validateChain_resolved self [])
    by (apply consistent_validateChain_loop; exact Hc).
  reflexivity.
Qed.

End Invariant.

(** ** The add-block protocol has no rollback *)

Section Atomicity.

Context `{Externals}.

(** C1 (as amended).  When the validation that ends [_addBlock] reports
    errors, the new block is retained all the same: the chain is the chain
    before the call followed by the block just sealed, and [height] is the
    index of that block.  Nothing in [_addBlock] removes a block. *)
Theorem addBlock_keeps_block (now : Z) (block : Block) (self : Blockchain)
    (log : list ValidationError) :
  validateChain (fst (_addBlock now block self)) = Resolved (Some log) ->
  chain (fst (_addBlock now block self))
  = chain self ++ [appended now block self]
  /\ length (chain (fst (_addBlock now block self)))
     = S (length (chain self))
  /\ height (fst (_addBlock now block self))
     = Z.of_nat (length (chain self)).
Proof.
  intros _. rewrite _addBlock_fst. cbn [chain height].
  rewrite length_app. simpl. repeat split. lia.
Qed.

End Atomicity.

Lemma addBlock_keeps_block_witness :
  chain (fst (_addBlock (H := demo) 1700000200000 polarisBlock overwritten))
  = chain overwritten
    ++ [appended (H := demo) 1700000200000 polarisBlock overwritten]
  /\ length (chain (fst (_addBlock (H := demo) 1700000200000
                          polarisBlock overwritten))) = 2%nat
  /\ height (fst (_addBlock (H := demo) 1700000200000
                    polarisBlock overwritten)) = 1.
Proof.
  apply (addBlock_keeps_block (H := demo) 1700000200000 polarisBlock
           overwritten [TamperingDetected 0 (Some "0000")]).
  vm_compute. reflexivity.
Defined.

(** C1, as the specification states it, fails: on a chain whose genesis
    block had its stored hash overwritten, the validation at the end of
    [_addBlock] reports the tampering, and yet the chain has grown and the
    promise is not rejected. *)
Lemma append_is_atomic_fails :
  ~ append_is_atomic (H := demo) 1700000200000 polarisBlock overwritten.
Proof.
  intros Hatomic.
  destruct (Hatomic [TamperingDetected 0 (Some "0000")]) as [Hsame _].
  - vm_compute. reflexivity.
  - apply (f_equal (fun s => length (chain s))) in Hsame.
    vm_compute in Hsame. discriminate Hsame.
Qed.

(** ** What the validation engine reports *)

Section Reporting.

Context `{Externals}.

(** C2 (as amended).  On a chain in which every block that passes its hash
    check and has a positive height has a block of height one less (so on
    every chain whose blocks sit at the index that is their height),
    [validateChain] visits every block in one pass, does not stop at an
    error and resolves: the log holds, in chain order, a tampering error
    for every block whose recomputed hash differs from the stored one and,
    for every block of positive height whose hash is right, a broken-link
    error when its [previousBlockHash] differs from the hash stored in the
    block one below.  The link of a tampered block is not looked at: such
    a block contributes the tampering error alone. *)
Theorem validateChain_reports (self : Blockchain) :
  predecessors_present (chain self) ->
  validateChain_loop (chain self) (chain self) []
  = Some (flat_map (reported_errors (chain self)) (chain self))
  /\ validateChain self
     = Resolved
         (match flat_map (reported_errors (chain self)) (chain self) with
          | [] => None
          | e :: log => Some (e :: log)
          end)
  /\ (forall e : ValidationError,
        e ∈ flat_map (reported_errors (chain self)) (chain self) <->
        exists b : Block,
          b ∈ chain self /\
          ((validate b = false /\
            e = TamperingDetected (BlockClass.height b) (BlockClass.hash b))
           \/
           (validate b = true /\ 0 < BlockClass.height b /\
            (exists p : Block,
                blockAtHeight (BlockClass.height b - 1) (chain self) = Some p
                /\ BlockClass.previousBlockHash b <> BlockClass.hash p) /\
            e = BrokenChain (BlockClass.height b) (BlockClass.height b - 1)))).
Proof.
  intros Hpred.
  assert (Hloop : validateChain_loop (chain self) (chain self) []
                  = Some (flat_map (reported_errors (chain self)) (chain self))).
  { rewrite validateChain_loop_reported by exact Hpred. reflexivity. }
  split; [ exact Hloop | split ].
  - rewrite (validateChain_resolved self _ Hloop).
    destruct (flat_map _ _); reflexivity.
  - intros e. rewrite list_elem_of_In, in_flat_map. split.
    + intros (b & Hb & He). exists b.
      apply list_elem_of_In in Hb. split; [ exact Hb | ].
      unfold reported_errors in He.
      destruct (validate b) eqn:Hv.
      * right. destruct (0 <? BlockClass.height b) eqn:Hh; [ | destruct He ].
        destruct (blockAtHeight _ _) as [ p | ] eqn:Hp; [ | destruct He ].
        destruct (bool_decide _) eqn:Hd; [ | destruct He ].
        apply bool_decide_eq_true in Hd.
        destruct He as [ <- | [] ].
        repeat split; [ apply Z.ltb_lt; exact Hh | ].
        exists p. split; [ reflexivity | exact Hd ].
      * left. destruct He as [ <- | [] ]. split; reflexivity.
    + intros (b & Hb & Hcase). exists b.
      split; [ apply list_elem_of_In; exact Hb | ].
      unfold reported_errors.
      destruct Hcase as [ [Hv ->] | (Hv & Hh & (p & Hp & Hne) & ->) ].
      * rewrite Hv. left. reflexivity.
      * rewrite Hv. apply Z.ltb_lt in Hh. rewrite Hh, Hp.
        rewrite bool_decide_eq_true_2 by exact Hne. left. reflexivity.
Qed.

End Reporting.

Lemma relinked_predecessors : predecessors_present (H := demo) (chain relinked).
Proof.
  intros b Hb Hv Hpos.
  vm_compute in Hb.
  apply elem_of_cons in Hb as [ -> | Hb ];
    [ | apply elem_of_cons in Hb as [ -> | Hb ]; [ | inversion Hb ] ].
  - vm_compute in Hpos. discriminate Hpos.
  - vm_compute in Hv. discriminate Hv.
Qed.

Lemma validateChain_reports_witness :
  validateChain (H := demo) relinked
  = Resolved (Some [TamperingDetected 1 (Some "679876584")]).
Proof.
  destruct (validateChain_reports (H := demo) relinked relinked_predecessors)
    as (_ & Hresolved & _).
  rewrite Hresolved. vm_compute. reflexivity.
Defined.

(** C2, as the specification states it, fails: the two checks are not
    independent.  Block 1 of [relinked] is both tampered and mis-linked,
    and the log holds the tampering error only. *)
Lemma validateChain_checks_not_independent :
  validateChain_loop (H := demo) (chain relinked) (chain relinked) []
  <> Some (flat_map (specified_errors (H := demo) (chain relinked))
             (chain relinked)).
Proof.
  vm_compute. discriminate.
Qed.

(** ** What the validation engine returns *)

Section Verdict.

Context `{Externals}.

(** A chain in which every block passes its hash check and names the hash
    of the block found one below it has nothing to report. *)
Lemma validateChain_clean (self : Blockchain) :
  (forall b : Block,
      b ∈ chain self ->
      validate b = true
      /\ (0 < BlockClass.height b ->
          exists p : Block,
            blockAtHeight (BlockClass.height b - 1) (chain self) = Some p
            /\ BlockClass.previousBlockHash b = BlockClass.hash p)) ->
  validateChain self = Resolved None.
Proof.
  intros Hclean.
  assert (Hpred : predecessors_present (chain self)).
  { intros b Hb _ Hpos. destruct (Hclean b Hb) as [_ Hlink].
    destruct (Hlink Hpos) as (p & Hp & _). eauto. }
  pose proof (validateChain_loop_reported (chain self) (chain self) [] Hpred)
    as Hloop.
  assert (Hnone : flat_map (reported_errors (chain self)) (chain self) = []).
  { assert (Hall : forall blocks : list Block,
               (forall b, b ∈ blocks -> b ∈ chain self) ->
               flat_map (reported_errors (chain self)) blocks = []).
    { induction blocks as [ | b blocks IH ]; intros Hsub; [ reflexivity | ].
      cbn [flat_map]. rewrite IH by (intros c Hc; apply Hsub; right; exact Hc).
      rewrite app_nil_r. unfold reported_errors.
      destruct (Hclean b (Hsub b ltac:(left))) as [-> Hlink].
      destruct (0 <? BlockClass.height b) eqn:Hpos; [ | reflexivity ].
      apply Z.ltb_lt in Hpos. destruct (Hlink Hpos) as (p & -> & Hprev).
      rewrite bool_decide_eq_false_2 by (intros Hne; exact (Hne Hprev)).
      reflexivity. }
    apply Hall. auto. }
  rewrite Hnone in Hloop.
  rewrite (validateChain_resolved self _ Hloop). reflexivity.
Qed.

(** C3 (as amended).  On a chain on which the pass of [validateChain]
    finds every predecessor it looks for, [validateChain] resolves with the
    sequence of all the errors of the pass when there is at least one, and
    with [null], not with an empty sequence, when there is none.  A chain
    without violations (every block passes its hash check, every block of
    positive height finds a block one below it and names its hash) is such
    a chain, and [validateChain] resolves with [null] on it.  Whatever the
    chain, a sequence [validateChain] resolves with is never empty. *)
Theorem validateChain_sequence_or_null (self : Blockchain) :
  (predecessors_present (chain self) ->
   (forall (e : ValidationError) (log : list ValidationError),
       flat_map (reported_errors (chain self)) (chain self) = e :: log ->
       validateChain self = Resolved (Some (e :: log)))
   /\ (flat_map (reported_errors (chain self)) (chain self) = [] ->
       validateChain self = Resolved None))
  /\ (intact (chain self) ->
      predecessors_present (chain self)
      /\ flat_map (reported_errors (chain self)) (chain self) = []
      /\ validateChain self = Resolved None)
  /\ (forall log : list ValidationError,
         validateChain self = Resolved (Some log) -> log <> []).
Proof.
  split; [ | split ].
  - intros Hpred.
    pose proof (validateChain_loop_reported (chain self) (chain self) [] Hpred)
      as Hloop.
    cbn [app] in Hloop. split.
    + intros e log Hlog. rewrite Hlog in Hloop.
      exact (validateChain_resolved self _ Hloop).
    + intros Hlog. rewrite Hlog in Hloop.
      exact (validateChain_resolved self _ Hloop).
  - intros Hintact.
    assert (Hpred : predecessors_present (chain self)).
    { intros b Hb _ Hpos. destruct (Hintact b Hb) as [_ Hlink].
      destruct (Hlink Hpos) as (p & Hp & _). eauto. }
    pose proof (validateChain_clean self Hintact) as Hnull.
    split; [ exact Hpred | split; [ | exact Hnull ] ].
    pose proof (validateChain_loop_reported (chain self) (chain self) [] Hpred)
      as Hloop.
    cbn [app] in Hloop.
    pose proof (validateChain_resolved self _ Hloop) as Hresolved.
    rewrite Hnull in Hresolved.
    destruct (flat_map _ _); [ reflexivity | discriminate Hresolved ].
  - intros log. unfold validateChain.
    destruct (validateChain_loop _ _ _) as [ found | ]; [ | discriminate ].
    destruct found as [ | e found ]; simpl; [ discriminate | ].
    intros [= <-]. discriminate.
Qed.

End Verdict.

Lemma fresh_intact : intact (H := demo) (chain fresh).
Proof.
  intros b Hb. vm_compute in Hb.
  apply elem_of_cons in Hb as [ -> | Hb ]; [ | inversion Hb ].
  split; [ vm_compute; reflexivity | ].
  intros Hpos. vm_compute in Hpos. discriminate Hpos.
Qed.

Lemma fresh_no_violations : no_violations (H := demo) (chain fresh).
Proof.
  intros b Hb. vm_compute in Hb.
  apply elem_of_cons in Hb as [ -> | Hb ]; [ | inversion Hb ].
  vm_compute. reflexivity.
Qed.

Lemma validateChain_sequence_or_null_witness :
  validateChain (H := demo) fresh = Resolved None
  /\ validateChain (H := demo) relinked
     = Resolved (Some [TamperingDetected 1 (Some "679876584")]).
Proof.
  split.
  - apply (proj1 (proj2 (validateChain_sequence_or_null (H := demo) fresh))).
    exact fresh_intact.
  - apply (proj1 (validateChain_sequence_or_null (H := demo) relinked)
             relinked_predecessors).
    vm_compute. reflexivity.
Defined.

(** C3, as the specification states it, fails: the chain as constructed
    has no violation, and [validateChain] does not resolve with the empty
    sequence on it. *)
Lemma validateChain_not_empty_sequence :
  no_violations (H := demo) (chain fresh)
  /\ validateChain (H := demo) fresh <> Resolved (Some []).
Proof.
  split; [ exact fresh_no_violations | ].
  vm_compute. discriminate.
Qed.

(** ** The clock and the challenge *)

Lemma uint_value_acc (d : Decimal.uint) :
  forall acc : Z,
    uint_value d acc
    = acc * 10 ^ Z.of_nat (Decimal.nb_digits d) + uint_value d 0
    /\ 0 <= uint_value d 0 < 10 ^ Z.of_nat (Decimal.nb_digits d).
Proof.
  induction d as [ | l IH | l IH | l IH | l IH | l IH | l IH | l IH | l IH
                   | l IH | l IH ]; intros acc;
    cbn [uint_value Decimal.nb_digits];
    [ simpl; lia | .. ];
    rewrite Nat2Z.inj_succ, Z.pow_succ_r by lia;
    match goal with
    | |- uint_value l (acc * 10 + ?k) = _ /\ _ =>
        destruct (IH (acc * 10 + k)) as [-> Hrange];
        destruct (IH (0 * 10 + k)) as [-> _]
    end; lia.
Qed.

Lemma of_uint_acc_value (d : Decimal.uint) :
  forall acc : positive,
    Z.pos (Pos.of_uint_acc d acc) = uint_value d (Z.pos acc).
Proof.
  induction d as [ | l IH | l IH | l IH | l IH | l IH | l IH | l IH | l IH
                   | l IH | l IH ]; intros acc;
    cbn [uint_value Pos.of_uint_acc]; [ reflexivity | .. ];
    rewrite IH; f_equal; lia.
Qed.

Lemma of_uint_value (d : Decimal.uint) :
  Z.of_N (Pos.of_uint d) = uint_value d 0.
Proof.
  induction d as [ | l IH | l IH | l IH | l IH | l IH | l IH | l IH | l IH
                   | l IH | l IH ];
    cbn [uint_value Pos.of_uint]; [ reflexivity | exact IH | .. ];
    cbn [Z.of_N]; rewrite of_uint_acc_value; reflexivity.
Qed.

Lemma to_uint_value (p : positive) : uint_value (Pos.to_uint p) 0 = Z.pos p.
Proof.
  rewrite <- of_uint_value, Unsigned.of_to. reflexivity.
Qed.

Lemma string_of_uint_length (d : Decimal.uint) :
  String.length (NilEmpty.string_of_uint d) = Decimal.nb_digits d.
Proof.
  induction d; simpl; congruence.
Qed.

Lemma parse_digits_prefix (d : Decimal.uint) :
  forall (acc : Z) (k : nat),
    (k <= Decimal.nb_digits d)%nat ->
    JS.parse_digits 10
      (substring 0 (Decimal.nb_digits d - k) (NilEmpty.string_of_uint d))
      (Some acc)
    = Some (uint_value d acc / 10 ^ Z.of_nat k).
Proof.
  induction d as [ | l IH | l IH | l IH | l IH | l IH | l IH | l IH | l IH
                   | l IH | l IH ]; intros acc k Hk;
    cbn [Decimal.nb_digits] in *.
  1: { assert (k = 0%nat) as -> by lia. simpl. rewrite Z.div_1_r. reflexivity. }
  all: destruct (decide (k = S (Decimal.nb_digits l))) as [ -> | Hne ];
    [ rewrite Nat.sub_diag; cbn [substring JS.parse_digits NilEmpty.string_of_uint];
      match goal with |- Some ?a = Some (uint_value ?d ?a / ?b) =>
        destruct (uint_value_acc d a) as [-> Hrange];
        cbn [Decimal.nb_digits] in Hrange;
        rewrite Z.div_add_l by lia; rewrite Z.div_small by exact Hrange
      end; f_equal; lia
    | replace (S (Decimal.nb_digits l) - k)%nat
        with (S (Decimal.nb_digits l - k)) by lia;
      cbn [NilEmpty.string_of_uint substring uint_value];
      rewrite <- IH by lia; reflexivity ].
Qed.

Ltac uint_cases d :=
  destruct d as [ | d | d | d | d | d | d | d | d | d | d ].

Ltac eval_chars :=
  repeat match goal with
    | |- context [JS.is_white_space ?c] =>
        let v := eval vm_compute in (JS.is_white_space c) in
        change (JS.is_white_space c) with v
    | |- context [JS.digit_value ?c] =>
        let v := eval vm_compute in (JS.digit_value c) in
        change (JS.digit_value c) with v
    end.

(** A non-empty prefix of a run of decimal digits has no sign, no white
    space and no hexadecimal mark for [parseInt] to strip. *)
Lemma parseInt_prefix (d : Decimal.uint) (m : nat) :
  d <> Decimal.Nil ->
  JS.parseInt (substring 0 (S m) (NilEmpty.string_of_uint d))
  = JS.parse_digits 10 (substring 0 (S m) (NilEmpty.string_of_uint d)) (Some 0).
Proof.
  intros Hd. uint_cases d; [ congruence | .. ];
    cbn [NilEmpty.string_of_uint substring];
    try (unfold JS.parseInt; cbn [JS.trim_start JS.parse_digits];
         repeat (eval_chars; cbn);
         destruct (JS.parse_digits _ _ _) as [ n | ];
         [ destruct n | ]; reflexivity).
  uint_cases d; destruct m as [ | m ];
    cbn [NilEmpty.string_of_uint substring];
    unfold JS.parseInt; cbn [JS.trim_start JS.parse_digits];
    repeat (eval_chars; cbn); try reflexivity;
    (destruct (JS.parse_digits _ _ _) as [ n | ];
     [ destruct n | ]; reflexivity).
Qed.

Lemma toString_pos (p : positive) :
  JS.toString (Z.pos p) = NilEmpty.string_of_uint (Pos.to_uint p).
Proof.
  unfold JS.toString. cbn [Z.to_int NilZero.string_of_int].
  pose proof (Unsigned.to_uint_nonnil p) as Hnil.
  destruct (Pos.to_uint p); [ congruence | reflexivity .. ].
Qed.

(** From the first second of 1970 on, the current time is the clock
    reading in whole seconds. *)
Lemma currentTime_seconds (now : Z) :
  1000 <= now -> currentTime now = Some (now / 1000).
Proof.
  intros Hnow. destruct now as [ | p | p ]; try lia.
  unfold currentTime, timeString. rewrite toString_pos.
  set (d := Pos.to_uint p).
  destruct (uint_value_acc d 0) as [_ Hrange].
  unfold d in Hrange at 1 2. rewrite to_uint_value in Hrange.
  assert (Hlen : (4 <= Decimal.nb_digits d)%nat).
  { destruct (le_lt_dec 4 (Decimal.nb_digits d)) as [ Hle | Hlt ];
      [ exact Hle | exfalso ].
    assert (10 ^ Z.of_nat (Decimal.nb_digits d) <= 10 ^ 3)
      by (apply Z.pow_le_mono_r; lia).
    lia. }
  unfold JS.slice0. rewrite string_of_uint_length.
  replace (Z.to_nat _) with (S (Decimal.nb_digits d - 4))
    by (cbn [Z.ltb Z.compare]; lia).
  rewrite parseInt_prefix by apply Unsigned.to_uint_nonnil.
  replace (S (Decimal.nb_digits d - 4)) with (Decimal.nb_digits d - 3)%nat
    by lia.
  rewrite parse_digits_prefix by lia.
  unfold d. rewrite to_uint_value. reflexivity.
Qed.

(** In the first second of 1970 the clock string loses all its digits and
    the current time is [NaN]. *)
Lemma currentTime_first_second (now : Z) :
  0 <= now < 1000 -> currentTime now = None.
Proof.
  intros Hnow.
  assert (Hall : forallb (fun n => match currentTime (Z.of_nat n) with
                                   | None => true
                                   | Some _ => false
                                   end) (seq 0 1000) = true)
    by (vm_compute; reflexivity).
  rewrite forallb_forall in Hall.
  specialize (Hall (Z.to_nat now)). rewrite Z2Nat.id in Hall by lia.
  destruct (currentTime now); [ | reflexivity ].
  discriminate Hall. apply in_seq. lia.
Qed.

(** A field that does not hold the separator is split off whole. *)
Lemma split_field (sep : ascii) (field rest : string) :
  JS.includes sep field = false ->
  JS.split sep (field +:+ String sep rest) = field :: JS.split sep rest.
Proof.
  induction field as [ | c field IH ]; intros Hnone.
  - simpl. rewrite Ascii.eqb_refl. reflexivity.
  - simpl in Hnone. apply orb_false_iff in Hnone as [Hc Hfield].
    simpl. rewrite Hc. simpl in IH. rewrite (IH Hfield). reflexivity.
Qed.

Lemma includes_colon_prefix (d : Decimal.uint) :
  forall m : nat,
    JS.includes ":" (substring 0 m (NilEmpty.string_of_uint d)) = false.
Proof.
  induction d as [ | l IH | l IH | l IH | l IH | l IH | l IH | l IH | l IH
                   | l IH | l IH ]; intros [ | m ]; try reflexivity;
    cbn [NilEmpty.string_of_uint substring JS.includes]; rewrite IH; reflexivity.
Qed.

Lemma includes_colon_timeString (now : Z) :
  0 < now -> JS.includes ":" (timeString now) = false.
Proof.
  intros Hnow. destruct now as [ | p | p ]; try lia.
  unfold timeString. rewrite toString_pos. unfold JS.slice0.
  apply includes_colon_prefix.
Qed.

(** The message issued for an address is read back by [submitStar] as
    issued at the second it was issued. *)
Lemma messageTime_issued (issued : Z) (address message : string) :
  1000 <= issued ->
  JS.includes ":" address = false ->
  requestMessageOwnershipVerification issued address = Resolved message ->
  messageTime message = Some (issued / 1000).
Proof.
  intros Hissued Haddress [= <-]. unfold messageTime.
  change (address +:+ ":" +:+ timeString issued +:+ ":starRegistry")
    with (address +:+ String ":"
            (timeString issued +:+ String ":" "starRegistry")).
  rewrite split_field by exact Haddress.
  rewrite split_field by (apply includes_colon_timeString; lia).
  cbn [lookup list_lookup]. unfold JS.parseInt_value. cbn [default].
  apply currentTime_seconds. exact Hissued.
Qed.

(** ** The freshness window of a submission *)

Section Freshness.

Context `{Externals}.

(** The three outcomes of [submitStar] when both times parse. *)
Lemma submitStar_cases (now now' : Z)
    (address message signature : string) (star : JSON) (self : Blockchain)
    (seconds sent : Z) :
  currentTime now = Some seconds ->
  messageTime message = Some sent ->
  submitStar now now' address message signature star self
  = if seconds - sent <? 300 then
      if bitcoinMessage_verify message address signature then
        (mkBlockchain
           (chain self
            ++ [appended now' (newBlock (StarData address star)) self])
           (Z.of_nat (length (chain self))),
         Resolved (appended now' (newBlock (StarData address star)) self),
         [(message, address, signature)])
      else (self, Rejected NotVerified, [(message, address, signature)])
    else (self, Rejected Expired, []).
Proof.
  intros Hnow Hsent.
  unfold submitStar. rewrite Hnow, Hsent. cbn [JS.sub JS.lt].
  destruct (seconds - sent <? 300); [ | reflexivity ].
  destruct (bitcoinMessage_verify _ _ _); [ | reflexivity ].
  destruct (_addBlock now' _ self) as [self' outcome] eqn:Hadd.
  apply (f_equal fst) in Hadd. rewrite _addBlock_fst in Hadd.
  cbn [fst] in Hadd. rewrite <- Hadd. reflexivity.
Qed.

(** C4.  Let [elapsed] be the clock reading in whole seconds less the time
    parsed from the second colon-delimited field of the message.  When
    [elapsed >= 300], [submitStar] rejects with the expiry error, does not
    call the signature check and leaves the chain alone.  When
    [elapsed <= 299] and the signature is valid, it resolves with the
    block, which is appended to the chain.  When [elapsed <= 299] and the
    signature is not valid, it rejects with the error of a failed check,
    whose text is not that of the expiry error. *)
Theorem submitStar_freshness (now now' : Z)
    (address message signature : string) (star : JSON) (self : Blockchain)
    (sent : Z) :
  1000 <= now ->
  messageTime message = Some sent ->
  (300 <= now / 1000 - sent ->
   submitStar now now' address message signature star self
   = (self, Rejected Expired, []))
  /\ (now / 1000 - sent <= 299 ->
      bitcoinMessage_verify message address signature = true ->
      submitStar now now' address message signature star self
      = (mkBlockchain
           (chain self
            ++ [appended now' (newBlock (StarData address star)) self])
           (Z.of_nat (length (chain self))),
         Resolved (appended now' (newBlock (StarData address star)) self),
         [(message, address, signature)]))
  /\ (now / 1000 - sent <= 299 ->
      bitcoinMessage_verify message address signature = false ->
      submitStar now now' address message signature star self
      = (self, Rejected NotVerified, [(message, address, signature)]))
  /\ NotVerified <> Expired.
Proof.
  intros Hnow Hsent.
  rewrite (submitStar_cases now now' address message signature star self
             (now / 1000) sent (currentTime_seconds now Hnow) Hsent).
  repeat split.
  - intros Hold. rewrite (proj2 (Z.ltb_ge _ _)) by lia. reflexivity.
  - intros Hnew Hvalid. rewrite (proj2 (Z.ltb_lt _ _)) by lia.
    rewrite Hvalid. reflexivity.
  - intros Hnew Hinvalid. rewrite (proj2 (Z.ltb_lt _ _)) by lia.
    rewrite Hinvalid. reflexivity.
  - discriminate.
Qed.

(** X8.  A challenge issued for an address that holds no colon, signed
    and submitted is accepted, the submission resolving with the new
    block, as long as fewer than 300 whole seconds lie between issue and
    submission. *)
Lemma challenge_accepted (issued now now' : Z)
    (address message signature : string) (star : JSON) (self : Blockchain) :
  1000 <= issued -> 1000 <= now ->
  JS.includes ":" address = false ->
  requestMessageOwnershipVerification issued address = Resolved message ->
  now / 1000 - issued / 1000 <= 299 ->
  bitcoinMessage_verify message address signature = true ->
  snd (fst (submitStar now now' address message signature star self))
  = Resolved (appended now' (newBlock (StarData address star)) self).
Proof.
  intros Hissued Hnow Haddress Hmessage Hfresh Hvalid.
  pose proof (messageTime_issued issued address message
                Hissued Haddress Hmessage) as Hsent.
  rewrite (submitStar_cases now now' address message signature star self
             (now / 1000) (issued / 1000)
             (currentTime_seconds now Hnow) Hsent).
  rewrite (proj2 (Z.ltb_lt _ _)) by lia. rewrite Hvalid. reflexivity.
Qed.

(** C10.  When the second colon-delimited field of the message does not
    parse as an integer (there is no second field, or it starts with no
    digit), [submitStar] rejects with the expiry error, does not call the
    signature check and leaves the chain alone. *)
Theorem submitStar_unparsable (now now' : Z)
    (address message signature : string) (star : JSON) (self : Blockchain) :
  messageTime message = None ->
  submitStar now now' address message signature star self
  = (self, Rejected Expired, []).
Proof.
  intros Hnan.
  unfold submitStar. rewrite Hnan.
  destruct (currentTime now); reflexivity.
Qed.

End Freshness.

Lemma submitStar_freshness_witness :
  submitStar (H := demo) 1700000299999 1700000300000 alice challenge
    (Demo.sign alice challenge) polaris fresh
  = (mkBlockchain
       (chain fresh
        ++ [appended (H := demo) 1700000300000
              (newBlock (H := demo) (StarData alice polaris)) fresh])
       1,
     Resolved (appended (H := demo) 1700000300000
                 (newBlock (H := demo) (StarData alice polaris)) fresh),
     [(challenge, alice, Demo.sign alice challenge)])
  /\ submitStar (H := demo) 1700000300000 1700000300000 alice challenge
       (Demo.sign alice challenge) polaris fresh
     = (fresh, Rejected Expired, []).
Proof.
  split.
  - apply (submitStar_freshness (H := demo) 1700000299999 1700000300000
             alice challenge (Demo.sign alice challenge) polaris fresh
             1700000000); [ lia | reflexivity | vm_compute; discriminate | ].
    vm_compute. reflexivity.
  - apply (submitStar_freshness (H := demo) 1700000300000 1700000300000
             alice challenge (Demo.sign alice challenge) polaris fresh
             1700000000); [ lia | reflexivity | vm_compute; discriminate ].
Defined.

Lemma submitStar_unparsable_witness :
  submitStar (H := demo) 1700000100000 1700000100456 alice
    "1AliceWallet" (Demo.sign alice "1AliceWallet") polaris fresh
  = (fresh, Rejected Expired, [])
  /\ submitStar (H := demo) 1700000100000 1700000100456 alice
       "1AliceWallet:soon:starRegistry"
       (Demo.sign alice "1AliceWallet:soon:starRegistry") polaris fresh
     = (fresh, Rejected Expired, []).
Proof.
  split; apply (submitStar_unparsable (H := demo)); reflexivity.
Defined.

(** ** Chains only grow *)

Section Growth.

Context `{Externals}.

Lemma step_chain (self : Blockchain) (op : Operation) :
  chain (step self op) = chain self ++ option_list (appendedBy self op).
Proof.
  destruct op as [ now data | now now' a m sg star | now ];
    cbn [step appendedBy].
  - rewrite _addBlock_fst. reflexivity.
  - rewrite submitStar_fst.
    destruct (accepted _) as [ [owner payload] | ].
    + rewrite _addBlock_fst. reflexivity.
    + simpl. rewrite app_nil_r. reflexivity.
  - unfold initializeChain. destruct (bool_decide _).
    + rewrite _addBlock_fst. reflexivity.
    + simpl. rewrite app_nil_r. reflexivity.
Qed.

Lemma steps_prefix (ops : list Operation) :
  forall self : Blockchain,
    chain self `prefix_of` chain (fold_left step ops self).
Proof.
  induction ops as [ | op ops IH ]; intros self.
  - reflexivity.
  - simpl. etransitivity; [ | apply IH ].
    rewrite step_chain. apply prefix_app_r. reflexivity.
Qed.

Lemma constructor_chain (now : Z) :
  constructor now
  = mkBlockchain [appended now (newBlock GenesisData) (mkBlockchain [] (-1))] 0.
Proof.
  unfold constructor, initializeChain. cbn [height].
  rewrite bool_decide_eq_true_2 by reflexivity.
  rewrite _addBlock_fst. reflexivity.
Qed.

Lemma run_genesis (now0 : Z) (ops : list Operation) :
  chain (run now0 ops) !! 0%nat
  = Some (appended now0 (newBlock GenesisData) (mkBlockchain [] (-1))).
Proof.
  unfold run.
  apply (prefix_lookup_Some (chain (constructor now0))).
  - rewrite constructor_chain. reflexivity.
  - apply steps_prefix.
Qed.

Lemma run_height (now0 : Z) (ops : list Operation) :
  height (run now0 ops) = Z.of_nat (length (chain (run now0 ops))) - 1
  /\ 0 <= height (run now0 ops).
Proof.
  pose proof (consistent_height _ (consistent_run now0 ops)) as Hh.
  pose proof (lookup_lt_Some _ _ _ (run_genesis now0 ops)) as Hlen.
  split; [ exact Hh | lia ].
Qed.

Lemma run_snoc (now0 : Z) (ops : list Operation) (op : Operation) :
  run now0 (ops ++ [op]) = step (run now0 ops) op.
Proof.
  unfold run. rewrite fold_left_app. reflexivity.
Qed.

(** The bodies of a chain are the encoded payloads of its history, the
    genesis payload first. *)
Lemma run_bodies (now0 : Z) (ops : list Operation) :
  BlockClass.body <$> chain (run now0 ops)
  = encode <$> (GenesisData :: omap stored ops).
Proof.
  induction ops as [ | op ops IH ] using rev_ind.
  - unfold run. cbn [fold_left omap]. rewrite constructor_chain.
    cbn [chain]. rewrite fmap_cons, appended_body. reflexivity.
  - rewrite run_snoc, step_chain, fmap_app, IH.
    rewrite omap_app. change (GenesisData :: omap stored ops ++ omap stored [op])
      with ((GenesisData :: omap stored ops) ++ omap stored [op]).
    rewrite fmap_app. f_equal.
    destruct (run_height now0 ops) as [_ Hpos].
    assert (Hone : omap stored [op] = option_list (stored op)).
    { simpl. destruct (stored op); reflexivity. }
    rewrite Hone.
    destruct op as [ now data | now now' a m sg star | now ];
      cbn [appendedBy stored].
    + change (option_list (Some ?x)) with [x].
      rewrite !fmap_cons, appended_body. reflexivity.
    + destruct (accepted _) as [ [owner payload] | ]; [ | reflexivity ].
      change (option_list (Some ?x)) with [x].
      rewrite !fmap_cons, appended_body. reflexivity.
    + rewrite bool_decide_eq_false_2 by lia. reflexivity.
Qed.

End Growth.

(** ** Stars by owner *)

Section Query.

Context `{Externals}.

Lemma collectStar_fold (address : string) (blocks : list Block) :
  forall stars : list JSON,
    fold_left (collectStar address) blocks stars
    = stars ++ owned_bodies address blocks.
Proof.
  unfold owned_bodies.
  induction blocks as [ | b blocks IH ]; intros stars.
  - simpl. rewrite app_nil_r. reflexivity.
  - cbn [fold_left omap list_omap]. rewrite IH.
    unfold collectStar, owns.
    destruct (getBData b) as [ blockBody | ]; [ | reflexivity ].
    destruct (JS.truthy blockBody); [ | reflexivity ].
    cbn [andb].
    destruct (JS.strict_eq_string _ _); [ | reflexivity ].
    rewrite <- app_assoc. reflexivity.
Qed.

(** The bodies a query returns are a function of the bodies stored. *)
Lemma owned_bodies_encoded (address : string) (blocks : list Block)
    (payloads : list JSON) :
  BlockClass.body <$> blocks = encode <$> payloads ->
  owned_bodies address blocks = List.filter (owns address) payloads.
Proof.
  revert payloads.
  induction blocks as [ | b blocks IH ]; intros [ | v payloads ] Hbodies;
    try discriminate Hbodies; [ reflexivity | ].
  rewrite !fmap_cons in Hbodies. injection Hbodies as Hb Hrest.
  unfold owned_bodies in *. cbn [omap list_omap List.filter].
  unfold getBData at 1. rewrite Hb, decode_encode.
  rewrite <- (IH payloads Hrest).
  destruct (owns address v); reflexivity.
Qed.

Lemma owns_StarData (address owner : string) (star : JSON) :
  owns address (StarData owner star) = String.eqb owner address.
Proof.
  unfold owns, StarData. cbn.
  destruct star; reflexivity.
Qed.

(** C5 (as amended).  [getStarsByWalletAddress] scans the chain in
    ascending height order, decodes each body and returns the whole
    decoded body (owner and star together, not the star field alone) of
    every block whose decoded owner equals the address, in chain order.
    On a chain built by the operations these are the payloads stored for
    that owner, oldest first; the genesis body, which has no owner, is
    never among them; and an address no payload was stored for gets the
    empty sequence. *)
Theorem getStarsByWalletAddress_bodies (address : string) :
  (forall self : Blockchain,
      getStarsByWalletAddress address self
      = Resolved (owned_bodies address (chain self)))
  /\ (forall (now0 : Z) (ops : list Operation),
         getStarsByWalletAddress address (run now0 ops)
         = Resolved (List.filter (owns address) (omap stored ops)))
  /\ owns address GenesisData = false
  /\ (forall (owner : string) (star : JSON),
         owns address (StarData owner star) = String.eqb owner address)
  /\ (forall (now0 : Z) (ops : list Operation),
         (forall v : JSON, In v (omap stored ops) -> owns address v = false) ->
         getStarsByWalletAddress address (run now0 ops) = Resolved []).
Proof.
  assert (Hall : forall self : Blockchain,
             getStarsByWalletAddress address self
             = Resolved (owned_bodies address (chain self))).
  { intros self. unfold getStarsByWalletAddress.
    rewrite collectStar_fold. reflexivity. }
  assert (Hrun : forall (now0 : Z) (ops : list Operation),
             getStarsByWalletAddress address (run now0 ops)
             = Resolved (List.filter (owns address) (omap stored ops))).
  { intros now0 ops. rewrite Hall.
    rewrite (owned_bodies_encoded address _ _ (run_bodies now0 ops)).
    reflexivity. }
  split; [ exact Hall | ].
  split; [ exact Hrun | ].
  split; [ reflexivity | ].
  split; [ intros owner star; apply owns_StarData | ].
  intros now0 ops Hnone. rewrite Hrun. f_equal.
  induction (omap stored ops) as [ | v l IH ]; [ reflexivity | ].
  simpl. rewrite (Hnone v) by (left; reflexivity).
  apply IH. intros w Hw. apply Hnone. right. exact Hw.
Qed.

End Query.

Lemma getStarsByWalletAddress_bodies_witness :
  getStarsByWalletAddress (H := demo) "1CarolWallet"
    (run (H := demo) 1700000000123 threeStars)
  = Resolved [].
Proof.
  apply (getStarsByWalletAddress_bodies (H := demo) "1CarolWallet").
  vm_compute. intros v [ <- | [ <- | [ <- | [] ] ] ]; reflexivity.
Defined.

(** Owners A, A, B: a query for A gets the two bodies of A in submission
    order, and a query for B the body of B. *)
Example getStarsByWalletAddress_two_of_three :
  getStarsByWalletAddress (H := demo) alice
    (run (H := demo) 1700000000123 threeStars)
  = Resolved [StarData alice polaris; StarData alice vega]
  /\ getStarsByWalletAddress (H := demo) bob
       (run (H := demo) 1700000000123 threeStars)
     = Resolved [StarData bob sirius].
Proof.
  split; vm_compute; reflexivity.
Qed.

(** C5, as the specification states it, fails: after [alice] submitted
    [polaris], the star field of the one body she owns is [polaris], but
    the query does not return the sequence holding [polaris]; it returns
    the body that wraps it. *)
Lemma getStarsByWalletAddress_not_star_field :
  owned_stars (H := demo) alice (chain oneStar) = [Some polaris]
  /\ getStarsByWalletAddress (H := demo) alice oneStar <> Resolved [polaris]
  /\ getStarsByWalletAddress (H := demo) alice oneStar
     = Resolved [StarData alice polaris].
Proof.
  split; [ vm_compute; reflexivity | ].
  split; [ vm_compute; discriminate | vm_compute; reflexivity ].
Qed.

(** ** Calls made one after the other *)

Section Tasks.

Context `{Externals}.

Lemma drain_call_addBlock (now : Z) (block : Block) (self : Blockchain) :
  drain (call_addBlock now block (mkLoop self []))
  = mkLoop (fst (_addBlock now block self)) [].
Proof.
  unfold drain, call_addBlock, _addBlock, resume. cbn [object waiting app].
  destruct (_addBlock_seal now block self) as [b d]. reflexivity.
Qed.

(** The constructor as every later task finds it is the object it
    returned, the waiting genesis block appended. *)
Lemma constructor_drained (now : Z) :
  drain (new_Blockchain now) = mkLoop (constructor now) [].
Proof.
  unfold new_Blockchain, call_initializeChain, constructor, initializeChain.
  cbn [object height].
  rewrite bool_decide_eq_true_2 by reflexivity.
  apply drain_call_addBlock.
Qed.

(** An operation whose task ends before anything else is called is the
    operation run to completion. *)
Lemma drain_call (op : Operation) (self : Blockchain) :
  drain (call op (mkLoop self [])) = mkLoop (step self op) [].
Proof.
  destruct op as [ now data | now now' a m sg star | now ]; cbn [call step].
  - apply drain_call_addBlock.
  - rewrite submitStar_fst. unfold accepted.
    destruct (JS.lt _ _); [ | reflexivity ].
    destruct (bitcoinMessage_verify _ _ _); [ | reflexivity ].
    cbn [andb]. apply drain_call_addBlock.
  - unfold call_initializeChain, initializeChain. cbn [object].
    destruct (bool_decide _); [ | reflexivity ].
    apply drain_call_addBlock.
Qed.

Lemma react_one_by_one (ops : list Operation) :
  forall self : Blockchain,
    fold_left react (flat_map (fun op => [Call op; TaskEnds]) ops)
      (mkLoop self [])
    = mkLoop (fold_left step ops self) [].
Proof.
  induction ops as [ | op ops IH ]; intros self; [ reflexivity | ].
  cbn [flat_map app fold_left react].
  rewrite drain_call. apply IH.
Qed.

(** The chains of [run] are those of [play] when every call is made after
    the task of the call before it has ended. *)
Lemma play_one_by_one (now0 : Z) (ops : list Operation) :
  play now0 (one_by_one ops) = mkLoop (run now0 ops) [].
Proof.
  unfold play, one_by_one, run. cbn [fold_left react].
  rewrite constructor_drained. apply react_one_by_one.
Qed.

(** Two calls of [_addBlock] in one task are the overlapping calls. *)
Lemma drain_two_calls (now1 : Z) (block1 : Block) (now2 : Z)
    (block2 : Block) (self : Blockchain) :
  drain (call_addBlock now2 block2
           (call_addBlock now1 block1 (mkLoop self [])))
  = mkLoop (_addBlock_overlapping now1 block1 now2 block2 self) [].
Proof.
  unfold drain, call_addBlock, _addBlock_overlapping, resume.
  cbn [object waiting app fold_left].
  destruct (_addBlock_seal now1 block1 self) as [b1 d1].
  destruct (_addBlock_seal now2 block2 self) as [b2 d2]. reflexivity.
Qed.

End Tasks.

(** ** Chains built by the operations *)

Section Reachable.

Context `{Externals}.

(** C6 (as amended).  A chain reached from construction by [_addBlock] on
    new blocks and by [submitStar], each call made after the task of the
    call before it (and the task of construction) has ended, is linked:
    every block above the first names the hash of the block below it.
    [validateChain] finds no error on it.  ([run] is [play] on such events:
    [play_one_by_one].) *)
Theorem reachable_linked_and_valid (now0 : Z) (ops : list Operation) :
  linked (chain (run now0 ops))
  /\ validateChain_loop (chain (run now0 ops)) (chain (run now0 ops)) []
     = Some []
  /\ validateChain (run now0 ops) = Resolved None
  /\ play now0 (one_by_one ops) = mkLoop (run now0 ops) [].
Proof.
  pose proof (consistent_run now0 ops) as Hc.
  split; [ exact (consistent_linked _ Hc) | ].
  split; [ exact (consistent_validateChain_loop _ Hc) | ].
  split; [ exact (consistent_validateChain _ Hc) | ].
  apply play_one_by_one.
Qed.

(** C7.  The hash of a block is computed when the block is appended, over
    the block with all its other fields final and the hash field out of
    it; the block then validates.  No later operation touches the block:
    it stays at its index as it was appended, so the hash is computed once
    and the stored hash keeps matching the recomputed one. *)
Theorem hash_computed_once (now : Z) (data : JSON) (self : Blockchain)
    (later : list Operation) :
  BlockClass.hash (appended now (newBlock data) self)
  = Some (SHA256 (JSON_stringify
                    (BlockClass.set_hash None
                       (appended now (newBlock data) self))))
  /\ BlockClass.hash (appended now (newBlock data) self)
     = Some (recomputeHash (appended now (newBlock data) self))
  /\ validate (appended now (newBlock data) self) = true
  /\ chain (fold_left step later (fst (_addBlock now (newBlock data) self)))
       !! length (chain self)
     = Some (appended now (newBlock data) self).
Proof.
  assert (Hhash : BlockClass.hash (appended now (newBlock data) self)
                  = Some (recomputeHash (appended now (newBlock data) self))).
  { unfold recomputeHash. rewrite appended_hash at 1. reflexivity. }
  split; [ exact Hhash | ].
  split; [ exact Hhash | ].
  split; [ apply appended_validate; reflexivity | ].
  apply (prefix_lookup_Some
           (chain (fst (_addBlock now (newBlock data) self)))).
  - rewrite _addBlock_fst. cbn [chain].
    rewrite lookup_app_r by lia. rewrite Nat.sub_diag. reflexivity.
  - apply steps_prefix.
Qed.

(** Every block of a chain built by the operations still validates. *)
Lemma reachable_sealed (now0 : Z) (ops : list Operation) :
  sealed (chain (run now0 ops)).
Proof.
  exact (consistent_sealed _ (consistent_run now0 ops)).
Qed.



End Reachable.



(** C6, as the specification states it, fails: two stars submitted in one
    task, after the task of construction, leave a chain that is not
    linked.  Both new blocks name the hash of the genesis block. *)
Lemma two_calls_in_one_task_not_linked :
  ~ linked (chain (object (play (H := demo) 1700000000123 twoAtOnce))).
Proof.
  intros Hlink.
  set (self := object (play (H := demo) 1700000000123 twoAtOnce)) in *.
  destruct (chain self !! 2%nat) as [ b | ] eqn:Hb;
    [ | vm_compute in Hb; discriminate Hb ].
  destruct (chain self !! 1%nat) as [ p | ] eqn:Hp;
    [ | vm_compute in Hp; discriminate Hp ].
  assert (Hprev : BlockClass.previousBlockHash b = BlockClass.hash p).
  { apply (Hlink 2%nat b p); [ lia | exact Hb | exact Hp ]. }
  vm_compute in Hb, Hp. injection Hb as <-. injection Hp as <-.
  vm_compute in Hprev. discriminate Hprev.
Qed.



(** ** Overlapping calls *)

(** All of the above is about operations that run one after the other.
    Two appends started back to back, neither awaited, both read the chain
    before either writes it: the two blocks get the same height and the
    same predecessor, [chain] is no longer indexed by height nor linked,
    and [validateChain], which looks predecessors up by height, sees
    nothing wrong. *)
Example overlapping_appends_share_height :
  let self := _addBlock_overlapping (H := demo) 1700000100000 polarisBlock
                1700000100001 (newBlock (H := demo) vega) fresh in
  BlockClass.height <$> chain self = [0; 1; 1]
  /\ ~ indexed (chain self)
  /\ ~ linked (chain self)
  /\ validateChain (H := demo) self = Resolved None.
Proof.
  cbv zeta.
  set (self := _addBlock_overlapping _ _ _ _ _).
  split; [ vm_compute; reflexivity | ].
  split; [ | split; [ | vm_compute; reflexivity ] ].
  - intros Hidx.
    destruct (chain self !! 2%nat) as [ b | ] eqn:Hb;
      [ | vm_compute in Hb; discriminate Hb ].
    pose proof (Hidx 2%nat b Hb) as Hheight.
    vm_compute in Hb. injection Hb as <-.
    vm_compute in Hheight. discriminate Hheight.
  - intros Hlink.
    destruct (chain self !! 2%nat) as [ b | ] eqn:Hb;
      [ | vm_compute in Hb; discriminate Hb ].
    destruct (chain self !! 1%nat) as [ p | ] eqn:Hp;
      [ | vm_compute in Hp; discriminate Hp ].
    assert (Hprev : BlockClass.previousBlockHash b = BlockClass.hash p).
    { apply (Hlink 2%nat b p); [ lia | exact Hb | exact Hp ]. }
    vm_compute in Hb, Hp. injection Hb as <-. injection Hp as <-.
    vm_compute in Hprev. discriminate Hprev.
Qed.

(** ** Blocks that come with a hash *)

(** [_addBlock] hashes the block as it comes.  Every caller in the class
    passes a block fresh from the constructor; a block whose hash field is
    already set gets a digest taken over that old hash too, and
    [validateChain] then reports it as tampered. *)
Example presealed_block_is_flagged :
  validateChain (H := demo)
    (fst (_addBlock (H := demo) 1700000200000
            (BlockClass.set_hash (Some "0000") polarisBlock) fresh))
  = Resolved (Some [TamperingDetected 1 (Some "3135492020")]).
Proof.
  vm_compute. reflexivity.
Qed.

(** ** Looking blocks up *)

Section Finding.

Context `{Externals}.

(** The first element a filter keeps: where it sits and what comes before
    it. *)
Lemma head_filter_Some {A : Type} (P : A -> Prop) `{forall x, Decision (P x)}
    (l : list A) (x : A) :
  head (filter P l) = Some x <->
  exists i : nat,
    l !! i = Some x /\ P x /\
    forall (j : nat) (y : A), (j < i)%nat -> l !! j = Some y -> ~ P y.
Proof.
  induction l as [ | a l IH ].
  - split; [ discriminate | intros (i & Hi & _); discriminate ].
  - rewrite filter_cons. destruct (decide (P a)) as [ Ha | Ha ].
    + split.
      * intros [= <-]. exists 0%nat. repeat split; [ exact Ha | ].
        intros j y Hj. lia.
      * intros (i & Hi & Hx & Hfirst). destruct i as [ | i ].
        -- injection Hi as <-. reflexivity.
        -- exfalso. apply (Hfirst 0%nat a); [ lia | reflexivity | exact Ha ].
    + rewrite IH. split.
      * intros (i & Hi & Hx & Hfirst). exists (S i).
        repeat split; [ exact Hi | exact Hx | ].
        intros [ | j ] y Hj Hy.
        -- injection Hy as <-. exact Ha.
        -- apply (Hfirst j y); [ lia | exact Hy ].
      * intros (i & Hi & Hx & Hfirst). destruct i as [ | i ].
        -- injection Hi as <-. contradiction.
        -- exists i. repeat split; [ exact Hi | exact Hx | ].
           intros j y Hj Hy. apply (Hfirst (S j) y); [ lia | exact Hy ].
Qed.

Lemma head_filter_None {A : Type} (P : A -> Prop) `{forall x, Decision (P x)}
    (l : list A) :
  head (filter P l) = None <-> forall x : A, x ∈ l -> ~ P x.
Proof.
  induction l as [ | a l IH ].
  - split; [ intros _ x Hx; inversion Hx | reflexivity ].
  - rewrite filter_cons. destruct (decide (P a)) as [ Ha | Ha ].
    + split; [ discriminate | ].
      intros Hnone. exfalso. apply (Hnone a); [ left | exact Ha ].
    + rewrite IH. split.
      * intros Hnone x Hx. apply elem_of_cons in Hx as [ -> | Hx ];
          [ exact Ha | apply Hnone; exact Hx ].
      * intros Hnone x Hx. apply Hnone. right. exact Hx.
Qed.

(** X1.  [getBlockByHash(hash)] resolves with the first block of the chain
    whose stored hash is [hash], and with [null] exactly when no block has
    that hash. *)
Theorem getBlockByHash_first_match (hash : string) (self : Blockchain) :
  (forall b : Block,
      getBlockByHash hash self = Resolved (Some b) <->
      exists i : nat,
        chain self !! i = Some b /\ BlockClass.hash b = Some hash /\
        forall (j : nat) (c : Block),
          (j < i)%nat -> chain self !! j = Some c ->
          BlockClass.hash c <> Some hash)
  /\ (getBlockByHash hash self = Resolved None <->
      forall b : Block, b ∈ chain self -> BlockClass.hash b <> Some hash).
Proof.
  unfold getBlockByHash. split.
  - intros b.
    pose proof (head_filter_Some (fun p => BlockClass.hash p = Some hash)
                  (chain self) b) as Hfirst.
    cbn beta in Hfirst. rewrite <- Hfirst. split.
    + intros [= Hhead]. exact Hhead.
    + intros ->. reflexivity.
  - pose proof (head_filter_None (fun p => BlockClass.hash p = Some hash)
                  (chain self)) as Hnone.
    cbn beta in Hnone. rewrite <- Hnone. split.
    + intros [= Hhead]. exact Hhead.
    + intros ->. reflexivity.
Qed.


(** A block that carries a hash is found by it, unless an earlier block
    carries the same hash and is found in its place. *)
Lemma found_by_hash (self : Blockchain) (i : nat) (b : Block) (h : string) :
  chain self !! i = Some b ->
  BlockClass.hash b = Some h ->
  exists (found : Block) (j : nat),
    getBlockByHash h self = Resolved (Some found)
    /\ chain self !! j = Some found
    /\ (j <= i)%nat
    /\ BlockClass.hash found = Some h.
Proof.
  intros Hb Hh. unfold getBlockByHash.
  destruct (head (filter _ (chain self))) as [ found | ] eqn:Hhead.
  - pose proof (proj1 (head_filter_Some
                         (fun p => BlockClass.hash p = Some h)
                         _ found) Hhead) as (j & Hj & Hfound & Hfirst).
    exists found, j. repeat split; try assumption.
    destruct (le_lt_dec j i) as [ Hle | Hlt ]; [ exact Hle | ].
    exfalso. exact (Hfirst i b Hlt Hb Hh).
  - exfalso.
    apply (proj1 (head_filter_None
                    (fun p => BlockClass.hash p = Some h) _) Hhead b);
      [ apply list_elem_of_lookup; eauto | exact Hh ].
Qed.

(** Every block of a chain built by the operations carries a hash. *)
Lemma run_hashed (now0 : Z) (ops : list Operation) (b : Block) :
  b ∈ chain (run now0 ops) -> is_Some (BlockClass.hash b).
Proof.
  revert b. induction ops as [ | op ops IH ] using rev_ind; intros b Hb.
  - unfold run in Hb. cbn [fold_left] in Hb.
    rewrite constructor_chain in Hb. cbn [chain] in Hb.
    apply list_elem_of_singleton in Hb as ->.
    rewrite appended_hash. eauto.
  - rewrite run_snoc, step_chain in Hb.
    apply elem_of_app in Hb as [ Hb | Hb ]; [ apply IH; exact Hb | ].
    destruct op as [ now data | now now' a m sg star | now ];
      cbn [appendedBy] in Hb.
    + apply list_elem_of_singleton in Hb as ->. rewrite appended_hash. eauto.
    + destruct (accepted _) as [ [owner payload] | ]; [ | inversion Hb ].
      apply list_elem_of_singleton in Hb as ->. rewrite appended_hash. eauto.
    + destruct (bool_decide _); [ | inversion Hb ].
      apply list_elem_of_singleton in Hb as ->. rewrite appended_hash. eauto.
Qed.

(** X2.  Every block of a chain built by the operations carries a hash,
    and [getBlockByHash] on that hash resolves with a block that carries
    it: the block itself, or an earlier block of the chain with the same
    hash. *)
Theorem built_block_found_by_hash (now0 : Z) (ops : list Operation)
    (i : nat) (b : Block) :
  chain (run now0 ops) !! i = Some b ->
  exists (h : string) (found : Block) (j : nat),
    BlockClass.hash b = Some h
    /\ getBlockByHash h (run now0 ops) = Resolved (Some found)
    /\ chain (run now0 ops) !! j = Some found
    /\ (j <= i)%nat
    /\ BlockClass.hash found = Some h.
Proof.
  intros Hb.
  destruct (run_hashed now0 ops b) as [h Hh];
    [ apply list_elem_of_lookup; eauto | ].
  destruct (found_by_hash _ i b h Hb Hh) as (found & j & Hfound).
  exists h, found, j. split; [ exact Hh | exact Hfound ].
Qed.


End Finding.

(** ** The height of a chain *)

Section Height.

Context `{Externals}.



End Height.

(** ** The outcomes of a submission *)

Section Outcomes.

Context `{Externals}.

(** X5.  A call of [submitStar] in which the signature check, when it is
    reached, returns, ends in one of three ways: it resolves with a block,
    which is then the one block added to the chain, after one call of the
    signature check that accepted; or it rejects with the not-verified
    error after one call of the signature check that refused, the chain as
    it was; or it rejects with the expiry error without any call of the
    signature check, the chain as it was.  So the chain changes only when
    the call resolves, and a rejection of either kind leaves it alone. *)
Theorem submitStar_outcomes (now now' : Z)
    (address message signature : string) (star : JSON) (self : Blockchain) :
  (exists block : Block,
      submitStar now now' address message signature star self
      = (mkBlockchain (chain self ++ [block]) (Z.of_nat (length (chain self))),
         Resolved block, [(message, address, signature)])
      /\ bitcoinMessage_verify message address signature = true)
  \/ (submitStar now now' address message signature star self
       = (self, Rejected NotVerified, [(message, address, signature)])
       /\ bitcoinMessage_verify message address signature = false)
  \/ submitStar now now' address message signature star self
     = (self, Rejected Expired, []).
Proof.
  unfold submitStar.
  destruct (JS.lt _ _); [ | right; right; reflexivity ].
  destruct (bitcoinMessage_verify _ _ _) eqn:Hverify;
    [ left | right; left; split; reflexivity ].
  exists (appended now' (newBlock (StarData address star)) self).
  destruct (_addBlock now' _ self) as [self' outcome] eqn:Hadd.
  apply (f_equal fst) in Hadd. rewrite _addBlock_fst in Hadd.
  cbn [fst] in Hadd. subst self'. split; reflexivity.
Qed.

End Outcomes.

(** ** Challenges *)

Section Challenges.

Context `{Externals}.

Lemma split_single (sep : ascii) (field : string) :
  JS.includes sep field = false -> JS.split sep field = [field].
Proof.
  induction field as [ | c field IH ]; intros Hnone; [ reflexivity | ].
  simpl in Hnone. apply orb_false_iff in Hnone as [Hc Hfield].
  simpl. rewrite Hc, (IH Hfield). reflexivity.
Qed.

(** X6.  A challenge is not used up by a submission.  When a submission
    resolved, a later submission with the same address, message and
    signature, for any star, resolves as well as long as the clock is
    within the window; the chain then holds the two blocks one after the
    other. *)
Theorem challenge_reusable (now1 now1' now2 now2' : Z)
    (address message signature : string) (star1 star2 : JSON)
    (self : Blockchain) (block1 : Block) (sent : Z) :
  snd (fst (submitStar now1 now1' address message signature star1 self))
  = Resolved block1 ->
  1000 <= now2 ->
  messageTime message = Some sent ->
  now2 / 1000 - sent <= 299 ->
  exists block2 : Block,
    submitStar now2 now2' address message signature star2
      (fst (fst (submitStar now1 now1' address message signature star1 self)))
    = (mkBlockchain (chain self ++ [block1; block2])
         (Z.of_nat (length (chain self)) + 1),
       Resolved block2, [(message, address, signature)]).
Proof.
  intros Hfirst Hnow Hsent Hfresh.
  assert (Hvalid : bitcoinMessage_verify message address signature = true
                   /\ fst (fst (submitStar now1 now1' address message
                                  signature star1 self))
                      = mkBlockchain (chain self ++ [block1])
                          (Z.of_nat (length (chain self)))).
  { revert Hfirst. unfold submitStar.
    destruct (JS.lt _ _); [ | discriminate ].
    destruct (bitcoinMessage_verify _ _ _); [ | discriminate ].
    destruct (_addBlock now1' _ self) as [self' outcome] eqn:Hadd.
    apply (f_equal fst) in Hadd. rewrite _addBlock_fst in Hadd.
    cbn [fst snd] in *. subst self'. intros [= <-]. split; reflexivity. }
  destruct Hvalid as [Hvalid ->].
  rewrite (submitStar_cases now2 now2' address message signature star2 _
             (now2 / 1000) sent (currentTime_seconds now2 Hnow) Hsent).
  rewrite (proj2 (Z.ltb_lt _ _)) by lia. rewrite Hvalid. cbn [chain].
  eexists. rewrite <- app_assoc, length_app. cbn [app length].
  rewrite Nat2Z.inj_add. reflexivity.
Qed.

(** X7.  The message issued for an address that holds no colon has three
    colon-delimited fields: the address, the clock in whole seconds as
    [submitStar] writes it, and [starRegistry]; [submitStar] reads the
    issue time back from it. *)
Theorem issued_message_fields (issued : Z) (address message : string) :
  1000 <= issued ->
  JS.includes ":" address = false ->
  requestMessageOwnershipVerification issued address = Resolved message ->
  JS.split ":" message = [address; timeString issued; "starRegistry"]
  /\ messageTime message = currentTime issued
  /\ messageTime message = Some (issued / 1000).
Proof.
  intros Hissued Haddress Hmessage.
  pose proof (messageTime_issued issued address message
                Hissued Haddress Hmessage) as Hread.
  injection Hmessage as <-.
  change (address +:+ ":" +:+ timeString issued +:+ ":starRegistry")
    with (address +:+ String ":"
            (timeString issued +:+ String ":" "starRegistry")) in *.
  split; [ | split; [ | exact Hread ] ].
  - rewrite split_field by exact Haddress.
    rewrite split_field by (apply includes_colon_timeString; lia).
    reflexivity.
  - rewrite Hread, currentTime_seconds by exact Hissued. reflexivity.
Qed.

(** X9.  Of a message [submitStar] reads the second colon-delimited field
    and nothing else: the first field and whatever follows the second
    colon play no part in the time it takes the message to be from, and a
    message that holds no colon carries no time at all. *)
Theorem messageTime_second_field (first second rest whole : string) :
  (JS.includes ":" first = false ->
   JS.includes ":" second = false ->
   messageTime (first +:+ String ":" (second +:+ String ":" rest))
   = JS.parseInt second
   /\ messageTime (first +:+ String ":" second) = JS.parseInt second)
  /\ (JS.includes ":" whole = false -> messageTime whole = None).
Proof.
  unfold messageTime. split.
  - intros Hfirst Hsecond. split.
    + rewrite !split_field by assumption. reflexivity.
    + rewrite split_field by exact Hfirst.
      rewrite split_single by exact Hsecond. reflexivity.
  - intros Hwhole. rewrite split_single by exact Hwhole. reflexivity.
Qed.

(** X10.  While the clock reads less than a second, the clock string
    loses all its digits, the current time is not a number, and every
    submission is rejected with the expiry error, the signature check not
    called and the chain as it was. *)
Theorem submitStar_before_first_second (now now' : Z)
    (address message signature : string) (star : JSON) (self : Blockchain) :
  0 <= now < 1000 ->
  submitStar now now' address message signature star self
  = (self, Rejected Expired, []).
Proof.
  intros Hnow. unfold submitStar.
  rewrite (currentTime_first_second now Hnow). reflexivity.
Qed.


End Challenges.

(** ** How validation ends *)

Section Ending.

Context `{Externals}.

(** A loop that throws has met a block whose hash is right, whose height
    is positive and below which there is no block. *)
Lemma validateChain_loop_throws (all blocks : list Block) :
  forall log : list ValidationError,
    validateChain_loop all blocks log = None ->
    exists b : Block,
      b ∈ blocks /\ validate b = true /\ 0 < BlockClass.height b /\
      blockAtHeight (BlockClass.height b - 1) all = None.
Proof.
  induction blocks as [ | block rest IH ]; intros log Hloop.
  - discriminate.
  - cbn [validateChain_loop] in Hloop.
    assert (Hlater : forall log',
               validateChain_loop all rest log' = None ->
               exists b : Block,
                 b ∈ block :: rest /\ validate b = true /\
                 0 < BlockClass.height b /\
                 blockAtHeight (BlockClass.height b - 1) all = None).
    { intros log' Hl. destruct (IH log' Hl) as (b & Hb & Hrest).
      exists b. split; [ right; exact Hb | exact Hrest ]. }
    destruct (validate block) eqn:Hv; [ | eauto ].
    destruct (0 <? BlockClass.height block) eqn:Hh; [ | eauto ].
    destruct (blockAtHeight _ all) eqn:Hp.
    + destruct (bool_decide _); eauto.
    + exists block. repeat split; [ left | exact Hv | | exact Hp ].
      apply Z.ltb_lt. exact Hh.
Qed.



(** X11.  [validateChain] never rejects.  It stays pending, for ever,
    exactly when some block of the chain passes its hash check, has a
    positive height and finds no block one below it: reading the hash of
    the missing predecessor throws inside the promise executor. *)
Theorem validateChain_outcome (self : Blockchain) :
  (forall reason : string, validateChain self <> Rejected reason)
  /\ (validateChain self = Pending <->
      exists b : Block,
        b ∈ chain self /\ validate b = true /\ 0 < BlockClass.height b /\
        blockAtHeight (BlockClass.height b - 1) (chain self) = None).
Proof.
  split; [ intros reason; apply validateChain_never_rejects | ].
  unfold validateChain. split.
  - destruct (validateChain_loop _ _ _) as [ log | ] eqn:Hloop.
    + destruct (0 <? length log)%nat; discriminate.
    + intros _. exact (validateChain_loop_throws _ _ _ Hloop).
  - intros (b & Hb & Hv & Hpos & Hnone).
    destruct (validateChain_loop _ _ _) as [ log | ] eqn:Hloop;
      [ | reflexivity ].
    destruct (validateChain_loop_ends _ _ _ _ Hloop b Hb Hv Hpos) as [p Hp].
    congruence.
Qed.


(** X13.  [_addBlock] never rejects: the branch that would reject with
    the invalid-chain text is never taken.  Its promise resolves with the
    block it appended whenever [validateChain] settles, whatever the
    verdict, and stays pending when [validateChain] does. *)
Theorem addBlock_outcome (now : Z) (block : Block) (self : Blockchain) :
  (forall reason : string,
      snd (_addBlock now block self) <> Rejected reason)
  /\ (forall verdict : option (list ValidationError),
         validateChain (fst (_addBlock now block self)) = Resolved verdict ->
         snd (_addBlock now block self) = Resolved (appended now block self))
  /\ (validateChain (fst (_addBlock now block self)) = Pending ->
      snd (_addBlock now block self) = Pending).
Proof.
  unfold _addBlock, appended.
  destruct (_addBlock_seal now block self) as [b d].
  unfold _addBlock_commit. cbn [fst snd].
  match goal with |- context [validateChain ?s] =>
    pose proof (validateChain_never_rejects s) as Hnever;
    destruct (validateChain s) as [ log | reason | ]
  end.
  - repeat split; [ discriminate | discriminate ].
  - exfalso. exact (Hnever reason eq_refl).
  - repeat split; [ discriminate | discriminate ].
Qed.

End Ending.

(** ** Operations only append *)

Section AppendOnly.

Context `{Externals}.

Lemma step_length (self : Blockchain) (op : Operation) :
  (length (chain self) <= length (chain (step self op))
   <= S (length (chain self)))%nat.
Proof.
  rewrite step_chain, length_app.
  destruct (appendedBy self op); simpl; lia.
Qed.

Lemma steps_length (ops : list Operation) :
  forall self : Blockchain,
    (length (chain self) <= length (chain (fold_left step ops self))
     <= length (chain self) + length ops)%nat.
Proof.
  induction ops as [ | op ops IH ]; intros self.
  - simpl. lia.
  - cbn [fold_left length].
    pose proof (IH (step self op)). pose proof (step_length self op). lia.
Qed.

(** X14.  No operation removes, moves or changes a block: after any
    operations a block is still at the index it was at, and the chain has
    grown by at most one block for each operation. *)
Theorem operations_append_only (ops : list Operation) (self : Blockchain)
    (i : nat) (b : Block) :
  chain self !! i = Some b ->
  chain (fold_left step ops self) !! i = Some b
  /\ (length (chain self) <= length (chain (fold_left step ops self))
      <= length (chain self) + length ops)%nat.
Proof.
  intros Hb. split; [ | apply steps_length ].
  exact (prefix_lookup_Some _ _ _ _ Hb (steps_prefix ops self)).
Qed.

(** X18.  What [getStarsByWalletAddress] returned for an address stays:
    after any further operations the chain is the chain it was followed by
    the blocks added since, and the query returns what it returned before,
    the same bodies in the same order, followed by what it returns on the
    added blocks alone. *)
Theorem getStarsByWalletAddress_grows (address : string)
    (ops : list Operation) (self : Blockchain) :
  exists (added : list Block) (earlier later : list JSON),
    chain (fold_left step ops self) = chain self ++ added
    /\ getStarsByWalletAddress address self = Resolved earlier
    /\ getStarsByWalletAddress address
         (mkBlockchain added (Z.of_nat (length added) - 1))
       = Resolved later
    /\ getStarsByWalletAddress address (fold_left step ops self)
       = Resolved (earlier ++ later).
Proof.
  destruct (steps_prefix ops self) as [added Hadded].
  exists added, (owned_bodies address (chain self)),
    (owned_bodies address added).
  split; [ exact Hadded | ].
  unfold getStarsByWalletAddress. cbn [chain].
  rewrite Hadded, !collectStar_fold.
  unfold owned_bodies. rewrite omap_app. repeat split.
Qed.

End AppendOnly.

(** ** Two appends at once *)

Section Overlapping.

Context `{Externals}.

Lemma _addBlock_overlapping_chain (now1 : Z) (block1 : Block)
    (now2 : Z) (block2 : Block) (self : Blockchain) :
  _addBlock_overlapping now1 block1 now2 block2 self
  = mkBlockchain
      (chain self ++ [appended now1 block1 self; appended now2 block2 self])
      (Z.of_nat (length (chain self)) + 1).
Proof.
  unfold _addBlock_overlapping, appended.
  destruct (_addBlock_seal now1 block1 self) as [b1 d1].
  destruct (_addBlock_seal now2 block2 self) as [b2 d2].
  unfold _addBlock_commit. cbn [fst chain].
  rewrite <- app_assoc. cbn [app]. f_equal.
  rewrite !length_app. simpl. lia.
Qed.

(** X15.  Two calls of [_addBlock] started one right after the other,
    before the continuation of either has run, both read the chain before
    either writes it.  Both blocks are appended, in the order of the
    calls, with the same height, the length the chain had, and with the
    same link when they came with the same one; the second block does not
    sit at the index that is its height. *)
Theorem overlapping_appends_collide (now1 : Z) (block1 : Block)
    (now2 : Z) (block2 : Block) (self : Blockchain) :
  chain (_addBlock_overlapping now1 block1 now2 block2 self)
  = chain self ++ [appended now1 block1 self; appended now2 block2 self]
  /\ BlockClass.height (appended now1 block1 self)
     = Z.of_nat (length (chain self))
  /\ BlockClass.height (appended now2 block2 self)
     = Z.of_nat (length (chain self))
  /\ (BlockClass.previousBlockHash block1 = BlockClass.previousBlockHash block2 ->
      BlockClass.previousBlockHash (appended now1 block1 self)
      = BlockClass.previousBlockHash (appended now2 block2 self))
  /\ ~ indexed (chain (_addBlock_overlapping now1 block1 now2 block2 self)).
Proof.
  rewrite _addBlock_overlapping_chain. cbn [chain].
  split; [ reflexivity | ].
  split; [ apply appended_height | ].
  split; [ apply appended_height | ].
  split.
  - intros Hsame. rewrite !appended_previousBlockHash, Hsame. reflexivity.
  - intros Hidx.
    pose proof (Hidx (S (length (chain self))) (appended now2 block2 self))
      as Hheight.
    rewrite lookup_app_r in Hheight by lia.
    replace (S (length (chain self)) - length (chain self))%nat with 1%nat
      in Hheight by lia.
    specialize (Hheight eq_refl). rewrite appended_height in Hheight. lia.
Qed.



End Overlapping.

(** ** A block replaced behind the chain's back *)

Section Tampering.

Context `{Externals}.



End Tampering.

(** ** The properties above on concrete chains *)

Ltac each_block Hb :=
  vm_compute in Hb;
  repeat (apply elem_of_cons in Hb as [ -> | Hb ]);
  try (inversion Hb; fail).

Lemma getBlockByHash_first_match_witness :
  getBlockByHash "0000" oneStar = Resolved None.
Proof.
  apply (proj2 (getBlockByHash_first_match "0000" oneStar)).
  intros b Hb. each_block Hb; vm_compute; discriminate.
Defined.

Lemma built_block_found_by_hash_witness :
  exists (h : string) (found : Block) (j : nat),
    BlockClass.hash aliceBlock = Some h
    /\ getBlockByHash h oneStar = Resolved (Some found)
    /\ chain oneStar !! j = Some found
    /\ (j <= 1)%nat
    /\ BlockClass.hash found = Some h.
Proof.
  apply (built_block_found_by_hash (H := demo) 1700000000123
           [SubmitStar 1700000100000 1700000100456 alice challenge
              (Demo.sign alice challenge) polaris] 1 aliceBlock).
  vm_compute. reflexivity.
Defined.



Lemma challenge_reusable_witness :
  exists block2 : Block,
    submitStar (H := demo) 1700000110000 1700000110222 alice challenge
      (Demo.sign alice challenge) vega oneStar
    = (mkBlockchain (chain fresh ++ [aliceBlock; block2]) 2,
       Resolved block2, [(challenge, alice, Demo.sign alice challenge)]).
Proof.
  apply (challenge_reusable (H := demo) 1700000100000 1700000100456
           1700000110000 1700000110222 alice challenge
           (Demo.sign alice challenge) polaris vega fresh aliceBlock
           1700000000).
  - vm_compute. reflexivity.
  - lia.
  - reflexivity.
  - vm_compute. discriminate.
Defined.

Lemma issued_message_fields_witness :
  JS.split ":" challenge = [alice; timeString 1700000000123; "starRegistry"]
  /\ messageTime challenge = currentTime 1700000000123
  /\ messageTime challenge = Some (1700000000123 / 1000).
Proof.
  apply (issued_message_fields 1700000000123 alice challenge).
  - lia.
  - reflexivity.
  - reflexivity.
Defined.

Lemma challenge_accepted_witness :
  snd (fst (submitStar (H := demo) 1700000100000 1700000100456 alice
              challenge (Demo.sign alice challenge) polaris fresh))
  = Resolved aliceBlock.
Proof.
  apply (challenge_accepted (H := demo) 1700000000123 1700000100000
           1700000100456 alice challenge (Demo.sign alice challenge)
           polaris fresh).
  - lia.
  - lia.
  - reflexivity.
  - reflexivity.
  - vm_compute. discriminate.
  - reflexivity.
Defined.

Lemma messageTime_second_field_witness :
  messageTime "anyone:1700000000:anything:at all" = JS.parseInt "1700000000"
  /\ messageTime "starRegistry" = None.
Proof.
  split.
  - apply (proj1 (messageTime_second_field "anyone" "1700000000"
                    "anything:at all" "starRegistry")); reflexivity.
  - apply (proj2 (messageTime_second_field "anyone" "1700000000"
                    "anything:at all" "starRegistry")); reflexivity.
Defined.

Lemma submitStar_before_first_second_witness :
  submitStar (H := demo) 999 999 alice "1AliceWallet:0:starRegistry"
    (Demo.sign alice "1AliceWallet:0:starRegistry") polaris fresh
  = (fresh, Rejected Expired, []).
Proof.
  apply (submitStar_before_first_second (H := demo)). lia.
Defined.


(** The block of [alice] alone, the genesis block gone: its hash is right,
    its height is 1 and there is no block of height 0. *)
Lemma validateChain_outcome_witness :
  validateChain (H := demo) (mkBlockchain [aliceBlock] 0) = Pending.
Proof.
  apply (proj2 (validateChain_outcome (H := demo)
                  (mkBlockchain [aliceBlock] 0))).
  exists aliceBlock.
  split; [ left | vm_compute; repeat split ].
Defined.


Lemma addBlock_outcome_witness :
  snd (_addBlock (H := demo) 1700000200000 polarisBlock overwritten)
  = Resolved (appended (H := demo) 1700000200000 polarisBlock overwritten).
Proof.
  apply (proj1 (proj2 (addBlock_outcome (H := demo) 1700000200000
                         polarisBlock overwritten))
           (Some [TamperingDetected 0 (Some "0000")])).
  vm_compute. reflexivity.
Defined.

Lemma operations_append_only_witness :
  chain (fold_left (step (H := demo)) threeStars fresh) !! 0%nat
  = Some genesisBlock
  /\ (length (chain fresh)
      <= length (chain (fold_left (step (H := demo)) threeStars fresh))
      <= length (chain fresh) + length threeStars)%nat.
Proof.
  apply (operations_append_only (H := demo) threeStars fresh 0 genesisBlock).
  vm_compute. reflexivity.
Defined.

Lemma overlapping_appends_collide_witness :
  BlockClass.previousBlockHash
    (appended (H := demo) 1700000100000 polarisBlock fresh)
  = BlockClass.previousBlockHash
      (appended (H := demo) 1700000100001 (newBlock (H := demo) vega) fresh).
Proof.
  apply (overlapping_appends_collide (H := demo) 1700000100000 polarisBlock
           1700000100001 (newBlock (H := demo) vega) fresh).
  reflexivity.
Defined.

